(** * feathers-redis: the query translator and the expiration-aware CRUD adapter

    A shallow embedding of [src/adapter.ts] (class [RedisAdapter]) and
    [src/index.ts] (class [RedisService]), with the properties of the
    specification stated over it.

    Layout:
    - values, records, errors;
    - the redis-om search builder as a trace of builder calls, and
      [redisQuery] over it;
    - the repository as a keyed store with a command log, and the adapter
      methods in a state-and-exception monad over it;
    - the properties. *)

From Stdlib Require Import ZArith.
From stdpp Require Import gmap strings list fin_maps pretty.

Set Warnings "-register-all,-clear-no-such-hyp".

Local Open Scope string_scope.
Local Open Scope Z_scope.
Local Open Scope list_scope.

(** ** Values *)

(** A JavaScript value as it occurs in a record or in a query. Numbers are
    the integers (limits, ages, timestamps); [undefined] is the absence of
    a key. The properties of an object are listed in enumeration order,
    the order of [for ... in] and of [Object.keys]. *)
Inductive value : Type :=
  | VNull
  | VBool (b : bool)
  | VNum (n : Z)
  | VStr (s : string)
  | VDate (t : Z)
  | VArr (items : list value)
  | VObj (props : list (string * value)).

(** JavaScript truthiness, [!!v]. *)
Definition truthy (v : value) : bool :=
  match v with
  | VNull => false
  | VBool b => b
  | VNum n => negb (n =? 0)
  | VStr s => negb (String.eqb s "")
  | VDate _ | VArr _ | VObj _ => true
  end.

(** Truthiness of a property read [o[k]]: an absent key reads [undefined]. *)
Definition truthy_opt (o : option value) : bool :=
  match o with
  | Some v => truthy v
  | None => false
  end.

(** The string a template literal makes of a value, [`${v}`], as
    [makeKey] of redis-om makes the key of an id. The items of a list are
    joined by commas, [null] among them as the empty string. A date is
    rendered by the engine in its local time zone, which the model does
    not have: its time value stands for it. *)
Fixpoint template (v : value) : string :=
  match v with
  | VNull => "null"
  | VBool b => if b then "true" else "false"
  | VNum n => pretty n
  | VStr s => s
  | VDate t => pretty t
  | VArr items =>
      (fix join (vs : list value) : string :=
         match vs with
         | [] => ""
         | item :: rest =>
             let first := match item with VNull => "" | _ => template item end in
             match rest with
             | [] => first
             | _ :: _ => first +:+ "," +:+ join rest
             end
         end) items
  | VObj _ => "[object Object]"
  end.

(** ** Errors *)

(** The exceptions the adapter raises or lets through: the Feathers errors
    it constructs (the [name] of a Feathers error is the name of its
    class), the errors of redis-om ([RedisOmError], with its [name] and
    [message]), and any other exception ([TypeError], a socket
    error, ...). *)
Inductive error : Type :=
  | NotFound (message : string)
  | BadRequest (message : string)
  | MethodNotAllowed (message : string)
  | GeneralError (message : string)
  | RedisOmError (name message : string)
  | OtherError (name message : string).

Inductive result (A : Type) : Type :=
  | Ok (a : A)
  | Err (e : error).
Arguments Ok {A} a.
Arguments Err {A} e.

Definition rbind {A B : Type} (r : result A) (k : A → result B) : result B :=
  match r with
  | Ok a => k a
  | Err e => Err e
  end.

(** [errorHandler] of [src/error-handler.ts]: for an error with a truthy
    [name], [new GeneralError(error, { name, message })]; an error without
    one is rethrown as it is. Both paths throw. The constructor of a
    Feathers error that is given an error object takes its message from
    it ([message || 'Error']) and its data from the enumerable properties
    the object has besides, of which an error of redis-om has none; the
    second argument is not read. The name of the error of redis-om is
    not carried over: the new error is named [GeneralError]. *)
Definition errorHandler (name message : string) : error :=
  if String.eqb name "" then RedisOmError name message
  else GeneralError (if String.eqb message "" then "Error" else message).

(** The handler shared by [redisQuery], [_find], [_create], [_patch],
    [_update] and [_remove]:
    [catch (error) { if (error instanceof RedisOmError) throw errorHandler(error); throw error; }] *)
Definition rethrow (e : error) : error :=
  match e with
  | RedisOmError name message => errorHandler name message
  | _ => e
  end.

Definition handle {A : Type} (r : result A) : result A :=
  match r with
  | Ok a => Ok a
  | Err e => Err (rethrow e)
  end.

(** ** The search builder *)

Inductive direction : Type := ASC | DESC.

(** One call on a redis-om [Search]. A sub-search built inside the callback
    of [search.or(fn)] or [search.and(fn)] is the list of calls made on it. *)
Inductive call : Type :=
  | WhereEquals (column : string) (v : value)
      (* search.where(column).equals(v) *)
  | WhereNotEquals (column : string) (v : value)
      (* search.where(column).not.equals(v) *)
  | WhereMethod (column method : string) (v : value)
      (* search.where(column)[method](v) *)
  | SortBy (field : string) (d : direction)
      (* search.sortBy(field, d) *)
  | OrSub (sub : list call)
      (* search.or(subSearch => ...) *)
  | AndSub (sub : list call)
      (* search.and(subSearch => ...) *)
  | AndEq (field : string) (v : value).
      (* search.and(field).eq(v) *)

(** What a read [METHODS[key]] of the operator table yields: the method
    name the table holds under the key, a member that the table, an
    object literal, inherits from [Object.prototype] (a function, or the
    prototype itself: truthy, and no string), or [undefined]. *)
Inductive member : Type :=
  | Own (method : string)
  | Inherited
  | Undefined.

(** The names every object inherits. *)
Definition Object_prototype : list string :=
  ["constructor"; "__defineGetter__"; "__defineSetter__"; "hasOwnProperty";
   "__lookupGetter__"; "__lookupSetter__"; "isPrototypeOf";
   "propertyIsEnumerable"; "toString"; "valueOf"; "__proto__";
   "toLocaleString"].

(** The operator table [METHODS], read as [METHODS[key]]. [$in] and
    [$nin] are present with the empty string as their method name. *)
Definition METHODS (key : string) : member :=
  if decide (key = "$ne") then Own "not"
  else if decide (key = "$in") then Own ""
  else if decide (key = "$nin") then Own ""
  else if decide (key = "$or") then Own "or"
  else if decide (key = "$and") then Own "and"
  else if decide (key = "$lt") then Own "lt"
  else if decide (key = "$lte") then Own "lte"
  else if decide (key = "$gt") then Own "gt"
  else if decide (key = "$gte") then Own "gte"
  else if bool_decide (key ∈ Object_prototype) then Inherited
  else Undefined.

(** [value[sortKey] === 1 ? 'ASC' : 'DESC'] *)
Definition sort_direction (v : value) : direction :=
  match v with
  | VNum 1 => ASC
  | _ => DESC
  end.

(** ** Records, options and parameters *)

(** An entity of redis-om: the enumerable fields of the object, and the
    key it is stored under (held by the object under the symbol
    [EntityId], so that [Object.keys] does not list it). *)
Record Entity : Type := mkEntity {
  eid : string;
  fields : gmap string value;
}.

(** [paginate] of the service options: [{ default, max }]. *)
Record PaginationParams : Type := mkPagination {
  pdefault : option Z;
  pmax : option Z;
}.

(** [multi] of the service options: a boolean or the list of the methods
    that accept several records. *)
Inductive multi_option : Type :=
  | MultiFlag (b : bool)
  | MultiList (methods : list string).

(** The service options the adapter reads, as the constructor leaves them
    ([id: options.id ?? 'entityId']: the identity field always has a
    name). [paginate] is [None] when it is absent or [false]. *)
Record Options : Type := mkOptions {
  opt_id : string;
  paginate : option PaginationParams;
  multi : multi_option;
}.

(** The adapter instance: its options and its default time to live
    ([this.expiration], assignable after construction). *)
Record Adapter : Type := mkAdapter {
  options : Options;
  expiration : option Z;
}.

(** A query as the type [AdapterQuery] has it, split as the destructuring
    [{ $select, $sort, $limit, $skip, ...query }] splits it. *)
Record AdapterQuery : Type := mkQuery {
  q_select : option (list string);
  q_sort : option value;
  q_limit : option Z;
  q_skip : option Z;
  q_rest : list (string * value);
}.

Inductive paginate_param : Type :=
  | PaginateUndefined
  | PaginateFalse
  | PaginateWith (p : PaginationParams).

(** The parameters of a call. The overrides of [params.adapter] are not
    modelled. *)
Record Params : Type := mkParams {
  p_query : option AdapterQuery;
  p_paginate : paginate_param;
  refreshExpiration : bool;
}.

Definition empty_query : AdapterQuery := mkQuery None None None None [].
Definition empty_params : Params := mkParams None PaginateUndefined false.

(** [getOptions(params)] of [AdapterBase]:
    [paginate = params.paginate !== undefined ? params.paginate : this.options.paginate]. *)
Definition getOptions (self : Adapter) (params : Params) : Options :=
  mkOptions
    (opt_id (options self))
    (match p_paginate params with
     | PaginateUndefined => paginate (options self)
     | PaginateFalse => None
     | PaginateWith p => Some p
     end)
    (multi (options self)).

(** The value of [filters.$limit]: the result of [parseInt], a number or
    [NaN]. *)
Inductive limit : Type :=
  | NaN
  | Lim (n : Z).

Definition limit_truthy (l : limit) : bool :=
  match l with
  | NaN => false
  | Lim n => negb (n =? 0)
  end.

Definition truthyZ (o : option Z) : bool :=
  match o with
  | Some n => negb (n =? 0)
  | None => false
  end.

(** [getLimit(_limit, paginate)] of [@feathersjs/adapter-commons]:
[[
  const limit = parseInt(_limit, 10)
  if (paginate && (paginate.default || paginate.max)) {
    const base = paginate.default || 0
    const lower = typeof limit === 'number' && !isNaN(limit) && limit >= 0 ? limit : base
    const upper = typeof paginate.max === 'number' ? paginate.max : Number.MAX_VALUE
    return Math.min(lower, upper)
  }
  return limit
]] *)
Definition getLimit (_limit : option Z) (paginate : option PaginationParams) : limit :=
  let limit := match _limit with Some n => Lim n | None => NaN end in
  match paginate with
  | Some p =>
      if truthyZ (pdefault p) || truthyZ (pmax p) then
        let base := if truthyZ (pdefault p) then default 0 (pdefault p) else 0 in
        let lower :=
          match limit with
          | Lim n => if 0 <=? n then n else base
          | NaN => base
          end in
        match pmax p with
        | Some upper => Lim (Z.min lower upper)
        | None => Lim lower
        end
      else limit
  | None => limit
  end.

Record Filters : Type := mkFilters {
  f_select : option (list string);
  f_sort : option value;
  f_limit : limit;
  f_skip : Z;
}.

(** [filterQuery(params)] of the adapter. *)
Definition filterQuery (self : Adapter) (params : Params)
  : option PaginationParams * Filters * list (string * value) :=
  let options := getOptions self params in
  let q := default empty_query (p_query params) in
  let limit := getLimit (q_limit q) (paginate options) in
  (paginate options,
   mkFilters (q_select q) (q_sort q) limit (default 0 (q_skip q)),
   q_rest q).

(** [allowsMulti(method, params)] of [AdapterBase]: [find] always takes
    several records, [get] and [update] never; otherwise [multi] decides. *)
Definition allowsMulti (self : Adapter) (method : string) (params : Params) : bool :=
  if decide (method = "find") then true
  else if decide (method = "get") then false
  else if decide (method = "update") then false
  else match multi (getOptions self params) with
       | MultiFlag b => b
       | MultiList methods => bool_decide (method ∈ methods)
       end.

(** The field selection written out four times in the adapter:
[[
  for (const key of Object.keys(entity))
    if (!$select.includes(key) && key !== idField) delete entity[key];
]] *)
Definition keep_selected (selection : list string) (idField : string)
    (entity : Entity) : Entity :=
  mkEntity (eid entity)
    (filter (λ kv, kv.1 ∈ selection ∨ kv.1 = idField) (fields entity)).

Definition select_fields (selection : option (list string)) (idField : string)
    (entity : Entity) : Entity :=
  match selection with
  | Some sel => keep_selected sel idField entity
  | None => entity
  end.

(** The result of [_find]: a list, or the envelope
    [{ total, limit, skip, data }]. *)
Inductive found : Type :=
  | Items (results : list Entity)
  | Paginated (total : Z) (limit : limit) (skip : Z) (data : list Entity).

(** The argument and the result of [_create]: one record or a list. *)
Inductive one_or_many (A : Type) : Type :=
  | One (a : A)
  | Many (l : list A).
Arguments One {A} a.
Arguments Many {A} l.

(** ** The store *)

(** A round trip to the store. *)
Inductive command : Type :=
  | Fetch (key : string)
  | Save (key : string) (data : gmap string value)
  | Remove (key : string)
  | Expire (key : string) (seconds : Z)
  | ReturnAll (search : list call)
  | ReturnPage (search : list call) (offset count : Z)
  | Count (search : list call).

(** The world an adapter call runs in: the records under their keys, the
    round trips made so far, the number of identifiers drawn from
    [randomUUID], and the outcome the store has in stock for each coming
    round trip ([Some e]: it fails with [e]; the schedule, once used up,
    has no more failures). *)
Record World : Type := mkWorld {
  store : gmap string (gmap string value);
  log : list command;
  drawn : nat;
  faults : list (option error);
}.

(** A computation of the adapter: it ends in a value or in an exception,
    and leaves a world in both cases. *)
Definition M (A : Type) : Type := World → result A * World.

Global Instance M_ret : MRet M := λ A a w, (Ok a, w).

Global Instance M_bind : MBind M :=
  λ A B k m w, match m w with
               | (Ok a, w') => k a w'
               | (Err e, w') => (Err e, w')
               end.

Global Instance M_throw : MThrow error M := λ A e w, (Err e, w).

(** A pure step that may throw, run inside a computation. *)
Definition lift {A : Type} (r : result A) : M A := λ w, (r, w).

(** [try { m } catch (error) { h error }] *)
Definition try_catch {A : Type} (m : M A) (h : error → M A) : M A :=
  λ w, match m w with
       | (Ok a, w') => (Ok a, w')
       | (Err e, w') => h e w'
       end.

(** The handler of [_find], [_create], [_patch], [_update], [_remove]. *)
Definition handled {A : Type} (m : M A) : M A :=
  try_catch m (λ e, mthrow (rethrow e)).

(** One round trip: it is logged, and it fails when the store says so. *)
Definition roundtrip (c : command) : M unit :=
  λ w, match faults w with
       | Some e :: rest => (Err e, mkWorld (store w) (log w ++ [c]) (drawn w) rest)
       | None :: rest => (Ok (), mkWorld (store w) (log w ++ [c]) (drawn w) rest)
       | [] => (Ok (), mkWorld (store w) (log w ++ [c]) (drawn w) [])
       end.

(** The effect of a write that the store accepted. *)
Definition write (key : string) (data : gmap string value) : M unit :=
  λ w, (Ok (), mkWorld (<[key := data]> (store w)) (log w) (drawn w) (faults w)).

Definition unlink (key : string) : M unit :=
  λ w, (Ok (), mkWorld (delete key (store w)) (log w) (drawn w) (faults w)).

Definition read_store : M (gmap string (gmap string value)) :=
  λ w, (Ok (store w), w).

Section Adapter.
(** The verdict of redis-om on a builder call: [None] when the call is
    accepted, [Some e] when it throws [e] (a field that is not in the
    schema, a sub-search without a root where, a method that the field
    type does not have, ...). *)
Variable raises : call → option error.

(** A builder call on [search]: it throws or it is recorded. *)
Definition invoke (search : list call) (c : call) : result (list call) :=
  match raises c with
  | Some e => Err e
  | None => Ok (search ++ [c])
  end.

(** The [else] branch of [redisQuery]: dispatch of one key on the
    operator table. An empty method name is falsy, as an absent one. An
    inherited member is truthy and is not [METHODS.$ne]: the builder is
    asked for [search.where(column)], and the property of that name, which
    the result does not have, is called: a [TypeError], unless the builder
    has thrown before. *)
Definition dispatch (search : list call) (column key : string) (v : value)
  : result (list call) :=
  match METHODS key with
  | Own method =>
      if String.eqb method "" then invoke search (WhereEquals column v)
      else if String.eqb method "not" then invoke search (WhereNotEquals column v)
      else invoke search (WhereMethod column method v)
  | Inherited =>
      rbind (invoke search (WhereMethod column key v))
        (λ _, Err (OtherError "TypeError" "search.where(...)[method] is not a function"))
  | Undefined => invoke search (WhereEquals column v)
  end.

(** [Object.keys(value).forEach(sortKey => search.sortBy(sortKey, ...))].
    The [$sort] of a query is an object ([value as Record<string, any>]);
    [Object.keys(null)] throws; a number, a boolean and a date have no
    keys. The index keys of an array or of a string, which the type of
    [$sort] excludes, are not modelled. *)
Fixpoint sort_each (search : list call) (props : list (string * value))
  : result (list call) :=
  match props with
  | [] => Ok search
  | (sortKey, d) :: rest =>
      rbind (invoke search (SortBy sortKey (sort_direction d)))
            (λ search', sort_each search' rest)
  end.

Definition sort_keys (search : list call) (v : value) : result (list call) :=
  match v with
  | VObj props => sort_each search props
  | VNull => Err (OtherError "TypeError" "Cannot convert undefined or null to object")
  | _ => Ok search
  end.

(** [redisQuery(search, query, parentKey)], by recursion on the query
    [v]. The items of [$or] and [$and] are query objects
    ([item: AdapterQuery]); of an item that is not an object no key is
    visited (the index keys of an array or of a string, which that type
    excludes, are not modelled). The search is returned as extended by
    the calls; the [try ... catch] of the method is [handle]. *)
Fixpoint redisQuery_val (v : value) (parentKey : option string)
    (search : list call) {struct v} : result (list call) :=
  match v with
  | VObj props =>
      handle
        ((fix each_key (ps : list (string * value)) (search : list call)
            {struct ps} : result (list call) :=
            match ps with
            | [] => Ok search
            | (key, val) :: rest =>
                let column := default key parentKey in
                rbind
                  (if decide (key = "$or") then
                     match val with
                     | VArr items =>
                         (fix each_item (its : list value) (search : list call)
                            {struct its} : result (list call) :=
                            match its with
                            | [] => Ok search
                            | item :: its' =>
                                rbind (redisQuery_val item None [])
                                  (λ sub, rbind (invoke search (OrSub sub))
                                     (λ search', each_item its' search'))
                            end) items search
                     | _ => Err (OtherError "TypeError" "value.forEach is not a function")
                     end
                   else if decide (key = "$and") then
                     match val with
                     | VArr items =>
                         rbind
                           ((fix each_item (its : list value) (sub : list call)
                               {struct its} : result (list call) :=
                               match its with
                               | [] => Ok sub
                               | item :: its' =>
                                   rbind (redisQuery_val item None sub)
                                     (λ sub', each_item its' sub')
                               end) items [])
                           (λ sub, invoke search (AndSub sub))
                     | _ => Err (OtherError "TypeError" "value.forEach is not a function")
                     end
                   else if decide (key = "$sort") then sort_keys search val
                   else
                     match val with
                     | VObj _ => redisQuery_val val (Some key) search
                     | _ => dispatch search column key val
                     end)
                  (λ search', each_key rest search')
            end) props search)
  | _ => Ok search
  end.

Definition redisQuery (search : list call) (query : list (string * value))
    (parentKey : option string) : result (list call) :=
  redisQuery_val (VObj query) parentKey search.

(** *** The repository *)

(** The answer of the index to a search over the stored records: the
    matching entities, in the order the store returns them. *)
Variable matching : list call → gmap string (gmap string value) → list Entity.

(** The identifiers [randomUUID] hands out, in the order of the draws. *)
Variable uuid : nat → string.

Definition randomUUID : M string :=
  λ w, (Ok (uuid (drawn w)),
        mkWorld (store w) (log w) (S (drawn w)) (faults w)).

(** [repository.fetch(id)]: a key that is not there yields an entity
    without fields. *)
Definition repository_fetch (key : string) : M Entity :=
  roundtrip (Fetch key);;
  s ← read_store;
  mret (mkEntity key (default ∅ (s !! key))).

(** [repository.save(id, data)]: the record under [id] is overwritten. *)
Definition repository_save (key : string) (data : gmap string value) : M Entity :=
  roundtrip (Save key data);;
  write key data;;
  mret (mkEntity key data).

(** [repository.save(entity)]: the entity goes back under its own key. *)
Definition repository_save_entity (entity : Entity) : M Entity :=
  repository_save (eid entity) (fields entity).

Definition repository_remove (key : string) : M unit :=
  roundtrip (Remove key);;
  unlink key.

(** [Promise.all(items.map(f))]: every callback is started, in the order
    of the items, whatever becomes of the others; the result is the list
    of the values, or the first failure. *)
Fixpoint promise_all {A B : Type} (f : A → M B) (items : list A) : M (list B) :=
  match items with
  | [] => mret []
  | item :: rest =>
      λ w, let '(r, w1) := f item w in
           let '(rs, w2) := promise_all f rest w1 in
           (match r, rs with
            | Ok b, Ok bs => Ok (b :: bs)
            | Err e, _ => Err e
            | Ok _, Err e => Err e
            end, w2)
  end.

(** The command [this.client.expire(this.makeKey(id), ttlInSeconds)]. *)
Definition client_expire (key : string) (seconds : Z) : M unit :=
  roundtrip (Expire key seconds).

(** [repository.expire(idOrIds, ttlInSeconds)] of redis-om:
[[
  const ids = typeof(idOrIds) === 'string' ? [ idOrIds ] : idOrIds
  await Promise.all(ids.map(id => this.client.expire(this.makeKey(id), ttlInSeconds)))
]]
    on the value it is handed ([None]: [undefined]). A string is one id,
    a list is its items; any other value has no [map], and the call
    throws a [TypeError] before anything is sent. *)
Definition repository_expire (idOrIds : option value) (seconds : Z) : M unit :=
  match idOrIds with
  | Some (VStr id) => client_expire id seconds
  | Some (VArr ids) =>
      promise_all (λ id, client_expire (template id) seconds) ids;;
      mret ()
  | _ => mthrow (OtherError "TypeError" "ids.map is not a function")
  end.

Definition search_return_all (search : list call) : M (list Entity) :=
  roundtrip (ReturnAll search);;
  s ← read_store;
  mret (matching search s).

Definition search_page (search : list call) (offset count : Z) : M (list Entity) :=
  roundtrip (ReturnPage search offset count);;
  s ← read_store;
  mret (take (Z.to_nat count) (drop (Z.to_nat offset) (matching search s))).

Definition search_count (search : list call) : M Z :=
  roundtrip (Count search);;
  s ← read_store;
  mret (Z.of_nat (length (matching search s))).

(** *** The adapter *)

(** [expire(key, seconds)], on a key or on a record: of a record, its
    identity is handed on as it is ([key[this.id] as string] is a cast of
    the type checker and converts nothing). *)
Definition expire (self : Adapter) (key : string + Entity) (seconds : Z) : M unit :=
  let key :=
    match key with
    | inl k => Some (VStr k)
    | inr entity => fields entity !! opt_id (options self)
    end in
  repository_expire key seconds.

Definition not_found (id : string) : error :=
  NotFound ("No record found for id '" +:+ id +:+ "'").

Definition non_empty (query : list (string * value)) : bool :=
  match query with
  | [] => false
  | _ :: _ => true
  end.

(** The count handed to [search.page]. A [NaN] limit reaches no page
    call: it is falsy in the branches without pagination, and the limit
    of a paginated call is a number. *)
Definition limit_count (l : limit) : Z :=
  match l with
  | Lim n => n
  | NaN => 0
  end.

(** [params.paginate === false || !paginate || !paginate.default] *)
Definition paginationDisabled (self : Adapter) (params : Params) : bool :=
  match p_paginate params with PaginateFalse => true | _ => false end
  || match paginate (getOptions self params) with
     | None => true
     | Some p => negb (truthyZ (pdefault p))
     end.

(** The search of a [_find] call: the translation of the query, then the
    sort directives of [params.query.$sort]. Reading [$sort] off an
    absent [params.query] throws. *)
Definition find_search (self : Adapter) (params : Params) : result (list call) :=
  let '(_, _, query) := filterQuery self params in
  rbind (if non_empty query then redisQuery [] query None else Ok [])
    (λ search,
       match p_query params with
       | None => Err (OtherError "TypeError" "Cannot read properties of undefined")
       | Some q =>
           match q_sort q with
           | Some v => if truthy v then sort_keys search v else Ok search
           | None => Ok search
           end
       end).

Definition _find (self : Adapter) (params : Params) : M found :=
  handled (
    let '(_, filters, _) := filterQuery self params in
    let idField := opt_id (getOptions self params) in
    search ← lift (find_search self params);
    if paginationDisabled self params then
      let finish (results : list Entity) : M found :=
        mret (Items (match f_select filters with
                     | Some sel => keep_selected sel idField <$> results
                     | None => results
                     end)) in
      let skip_truthy := negb (f_skip filters =? 0) in
      if limit_truthy (f_limit filters) && negb skip_truthy then
        results ← search_page search 0 (limit_count (f_limit filters));
        finish results
      else if limit_truthy (f_limit filters) && skip_truthy then
        results ← search_page search (f_skip filters) (limit_count (f_limit filters));
        finish results
      else if negb (limit_truthy (f_limit filters)) && skip_truthy then
        total ← search_count search;
        results ← search_page search (f_skip filters) total;
        finish results
      else
        match f_limit filters with
        | Lim 0 => mret (Items [])
        | _ =>
            results ← search_return_all search;
            finish results
        end
    else
      results ← search_page search (f_skip filters) (limit_count (f_limit filters));
      total ← search_count search;
      mret (Paginated total (f_limit filters) (f_skip filters) results)).

Definition _get (self : Adapter) (id : string) (_params : Params) : M Entity :=
  try_catch (
    let idField := opt_id (getOptions self _params) in
    let '(_, filters, query) := filterQuery self _params in
    entity ←
      (if non_empty query then
         search ← lift (redisQuery [] query None);
         search ← lift (invoke search (AndEq idField (VStr id)));
         results ← search_return_all search;
         match results with
         | [] => mthrow (not_found id)
         | first :: _ => mret first
         end
       else repository_fetch id);
    if negb (String.eqb idField "") && negb (truthy_opt (fields entity !! idField))
    then mthrow (not_found id)
    else mret (select_fields (f_select filters) idField entity))
    (λ _, mthrow (not_found id)).

(** [{ [idField ?? 'entityId']: uuid, ...item }]: the properties of the
    item are spread over the generated identity. *)
Definition with_identity (idField uuid : string) (item : gmap string value)
  : gmap string value :=
  item ∪ {[ idField := VStr uuid ]}.

Definition _create (self : Adapter) (data : one_or_many (gmap string value))
    (_params : Params) : M (one_or_many Entity) :=
  handled (
    let idField := opt_id (getOptions self _params) in
    let '(_, filters, _) := filterQuery self _params in
    match data with
    | Many items =>
        results ← promise_all
          (λ item, uuid ← randomUUID;
                   repository_save uuid (with_identity idField uuid item))
          items;
        mret (Many (select_fields (f_select filters) idField <$> results))
    | One item =>
        uuid ← randomUUID;
        entity ← repository_save uuid (with_identity idField uuid item);
        let entity := select_fields (f_select filters) idField entity in
        (if truthyZ (expiration self)
         then expire self (inr entity) (default 0 (expiration self))
         else mret ());;
        mret (One entity)
    end).

(** [Object.assign(entity, data)] *)
Definition assign (entity : Entity) (data : gmap string value) : Entity :=
  mkEntity (eid entity) (data ∪ fields entity).

Definition _patch (self : Adapter) (id : option string)
    (data : gmap string value) (params : Params) : M Entity :=
  handled (
    match id with
    | None => mthrow (MethodNotAllowed "Cannot patch multiple entries without an ID")
    | Some id =>
        entity ← _get self id params;
        let entity := assign entity data in
        repository_save_entity entity;;
        mret entity
    end).

Definition _update (self : Adapter) (id : option string)
    (data : gmap string value) (_params : Params) : M Entity :=
  handled (
    match id with
    | None => mthrow (BadRequest "You must provide an ID to update an entry")
    | Some id =>
        let idField := opt_id (getOptions self _params) in
        let '(_, filters, query) := filterQuery self _params in
        (if non_empty query then
           search ← lift (redisQuery [] query None);
           search ← lift (invoke search (AndEq idField (VStr id)));
           results ← search_return_all search;
           match results with
           | [] => mthrow (not_found id)
           | first :: _ => mret first
           end
         else
           entity ← repository_fetch id;
           if negb (String.eqb idField "")
              && negb (truthy_opt (fields entity !! idField))
           then mthrow (not_found id)
           else mret entity);;
        entity ← repository_save id data;
        mret (select_fields (f_select filters) idField entity)
    end).

Definition _remove (self : Adapter) (id : option string) (params : Params)
  : M Entity :=
  handled (
    match id with
    | None => mthrow (MethodNotAllowed "Cannot remove multiple entries without an ID")
    | Some id =>
        entity ← _get self id params;
        repository_remove id;;
        mret entity
    end).

(** *** The service *)

(** [RedisService.create]: the guard on the multi allow-list, then
    [_create]. *)
Definition create (self : Adapter) (data : one_or_many (gmap string value))
    (params : Params) : M (one_or_many Entity) :=
  match data with
  | Many _ =>
      if negb (allowsMulti self "create" params)
      then mthrow (MethodNotAllowed "Can not create multiple entries")
      else _create self data params
  | One _ => _create self data params
  end.

End Adapter.

(** ** The service methods

    [RedisService.find], [get], [update], [patch] and [remove] of
    [src/index.ts]: each sanitizes the query and hands over to the adapter
    method. *)
Module Service.
Section Methods.
Variable raises : call → option error.
Variable matching : list call → gmap string (gmap string value) → list Entity.

(** [sanitizeQuery(params)] of [AdapterBase]: the validation of the query
    against the options of the service. It makes no round trip, and it
    rejects a query it does not accept. *)
Variable sanitizeQuery : Adapter → Params → result AdapterQuery.

(** [{ ...params, query }] *)
Definition with_query (params : Params) (q : AdapterQuery) : Params :=
  mkParams (Some q) (p_paginate params) (refreshExpiration params).

(** [const { $limit, ...query } = ...]: the query without its limit. *)
Definition without_limit (q : AdapterQuery) : AdapterQuery :=
  mkQuery (q_select q) (q_sort q) None (q_skip q) (q_rest q).

Definition find (self : Adapter) (params : Params) : M found :=
  q ← lift (sanitizeQuery self params);
  _find raises matching self (with_query params q).

Definition get (self : Adapter) (id : string) (params : Params) : M Entity :=
  q ← lift (sanitizeQuery self params);
  _get raises matching self id (with_query params q).

Definition update (self : Adapter) (id : option string)
    (data : gmap string value) (params : Params) : M Entity :=
  q ← lift (sanitizeQuery self params);
  _update raises matching self id data (with_query params q).

Definition patch (self : Adapter) (id : option string)
    (data : gmap string value) (params : Params) : M Entity :=
  q ← lift (sanitizeQuery self params);
  _patch raises matching self id data (with_query params (without_limit q)).

Definition remove (self : Adapter) (id : option string) (params : Params)
  : M Entity :=
  q ← lift (sanitizeQuery self params);
  _remove raises matching self id (with_query params (without_limit q)).
End Methods.
End Service.

(** ** A reference backend

    The instances the examples run on: a builder that accepts every call,
    an index that evaluates the clauses of a search on every stored record
    and answers in key order, and a generator that numbers its
    identifiers. *)

Definition accept : call → option error := λ _, None.

Definition scalar_eqb (a b : value) : bool :=
  match a, b with
  | VNum x, VNum y => x =? y
  | VStr x, VStr y => String.eqb x y
  | VBool x, VBool y => Bool.eqb x y
  | _, _ => false
  end.

Definition compare_by (method : string) (a b : value) : bool :=
  match a, b with
  | VNum x, VNum y =>
      if String.eqb method "lt" then x <? y
      else if String.eqb method "lte" then x <=? y
      else if String.eqb method "gt" then y <? x
      else if String.eqb method "gte" then y <=? x
      else false
  | _, _ => false
  end.

(** One call on a search whose root condition evaluates to [root] on the
    record ([None]: no condition yet). A [where] on a search that has a
    root narrows it, [or] widens it. *)
Fixpoint refine (record : gmap string value) (root : option bool) (c : call)
    {struct c} : option bool :=
  let narrow (b : bool) := Some (default true root && b) in
  let sub_root :=
    fix sub_root (cs : list call) (acc : option bool) {struct cs} : option bool :=
      match cs with
      | [] => acc
      | c' :: cs' => sub_root cs' (refine record acc c')
      end in
  match c with
  | WhereEquals column v | AndEq column v =>
      narrow (from_option (λ x, scalar_eqb x v) false (record !! column))
  | WhereNotEquals column v =>
      narrow (negb (from_option (λ x, scalar_eqb x v) false (record !! column)))
  | WhereMethod column method v =>
      narrow (from_option (λ x, compare_by method x v) false (record !! column))
  | SortBy _ _ => root
  | OrSub sub =>
      match sub_root sub None, root with
      | Some b, Some a => Some (a || b)
      | Some b, None => Some b
      | None, _ => root
      end
  | AndSub sub =>
      match sub_root sub None with
      | Some b => narrow b
      | None => root
      end
  end.

Definition satisfies (search : list call) (record : gmap string value) : bool :=
  default true (foldl (refine record) None search).

Definition scan (search : list call) (s : gmap string (gmap string value))
  : list Entity :=
  (λ kv, mkEntity kv.1 kv.2) <$> filter (λ kv, satisfies search kv.2) (map_to_list s).

Definition numbered (n : nat) : string := "uuid-" +:+ pretty n.

(** ** Vocabulary of the properties *)

(** Every round trip [m] makes, from any world, satisfies [P]; in
    particular the log only grows. *)
Definition sends {A : Type} (P : command → Prop) (m : M A) : Prop :=
  ∀ w, ∃ cmds, log (m w).2 = log w ++ cmds ∧ Forall P cmds.

Definition is_expire (c : command) : bool :=
  match c with
  | Expire _ _ => true
  | _ => false
  end.

(** The round trips of a lookup: a fetch by key or a search. *)
Definition is_lookup (c : command) : bool :=
  match c with
  | Fetch _ | ReturnAll _ => true
  | _ => false
  end.

(** The keys [redisQuery] treats before it looks at the value. *)
Definition reserved : list string := ["$or"; "$and"; "$sort"].

Definition is_object (v : value) : bool :=
  match v with
  | VObj _ => true
  | _ => false
  end.

(** The default time to live is configured: [this.expiration] is truthy. *)
Definition configured (self : Adapter) : bool := truthyZ (expiration self).

(** The entities a create call makes of its items when [n] identifiers
    have been drawn so far: the [i]-th item gets the [n + i]-th identifier
    as its key, spread under its own properties. *)
Fixpoint created (uuid : nat → string) (idField : string) (n : nat)
    (items : list (gmap string value)) : list Entity :=
  match items with
  | [] => []
  | item :: rest =>
      mkEntity (uuid n) (with_identity idField (uuid n) item)
      :: created uuid idField (S n) rest
  end.

(** The save commands of a list of entities, and the store after them. *)
Definition saves (entities : list Entity) : list command :=
  (λ e, Save (eid e) (fields e)) <$> entities.

Definition stored (entities : list Entity) (s : gmap string (gmap string value))
  : gmap string (gmap string value) :=
  foldl (λ s e, <[eid e := fields e]> s) s entities.

(** The same adapter with another [multi] option. *)
Definition with_multi (m : multi_option) (self : Adapter) : Adapter :=
  mkAdapter (mkOptions (opt_id (options self)) (paginate (options self)) m)
            (expiration self).

(** The records of an argument or of a result of create. *)
Definition members {A : Type} (x : one_or_many A) : list A :=
  match x with
  | One a => [a]
  | Many l => l
  end.

(** What create makes of the [item] it gives the key [key]: the entity
    has the key, the record is stored under it, and the identity field,
    in the entity and in the store, holds the key unless the item brings
    an identity of its own. *)
Definition identified (idField key : string) (item : gmap string value)
    (entity : Entity) (w' : World) : Prop :=
  eid entity = key
  ∧ store w' !! key = Some (with_identity idField key item)
  ∧ with_identity idField key item !! idField
    = Some (default (VStr key) (item !! idField))
  ∧ fields entity !! idField = Some (default (VStr key) (item !! idField)).

(** The claim on identities, for one create call: the identity field of
    the returned record and of the record stored under the generated key
    is the generated identifier. *)
Definition identity_is_generated (uuid : nat → string) (self : Adapter)
    (item : gmap string value) (params : Params) (w : World) : Prop :=
  ∀ entity w',
    _create uuid self (One item) params w = (Ok (One entity), w') →
    fields entity !! opt_id (options self) = Some (VStr (uuid (drawn w)))
    ∧ store w' !! uuid (drawn w) ≫= (.!! opt_id (options self))
      = Some (VStr (uuid (drawn w))).

(** The list a find call returns: the result itself, or the [data] of the
    envelope. *)
Definition data_of (r : found) : list Entity :=
  match r with
  | Items results => results
  | Paginated _ _ _ data => data
  end.

(** The claim on a zero limit, for one find call: the data is empty and
    nothing was sent to the store. *)
Definition zero_limit_is_silent (raises : call → option error)
    (matching : list call → gmap string (gmap string value) → list Entity)
    (self : Adapter) (params : Params) (w : World) : Prop :=
  ∃ r w', _find raises matching self params w = (Ok r, w')
          ∧ data_of r = [] ∧ log w' = log w.

(** The claim on patch, for one call: the record stored under [id] after
    the call is the one stored before with the fields of [data] laid
    over it. *)
Definition patch_merges_stored (raises : call → option error)
    (matching : list call → gmap string (gmap string value) → list Entity)
    (self : Adapter) (id : string) (data : gmap string value)
    (params : Params) (w : World) : Prop :=
  ∀ previous, store w !! id = Some previous →
    store (_patch raises matching self (Some id) data params w).2 !! id
    = Some (data ∪ previous).

(** An upper bound of the page size that does not turn a zero limit into
    a negative one. *)
Definition max_allows_zero (p : option PaginationParams) : Prop :=
  match p with
  | Some pg => match pmax pg with Some upper => 0 ≤ upper | None => True end
  | None => True
  end.

(** The expirations a world has seen: the keys and seconds of its
    [Expire] commands, in order. *)
Definition expirations (w : World) : list (string * Z) :=
  omap (λ c, match c with Expire key seconds => Some (key, seconds) | _ => None end)
       (log w).

(** A computation that leaves the records of the store as they are,
    however it ends. *)
Definition keeps_store {A : Type} (m : M A) : Prop :=
  ∀ w, store (m w).2 = store w.

(** An error that is not an error of redis-om with a name: what the
    handler of the adapter methods lets out. *)
Definition normalized (e : error) : Prop :=
  match e with
  | RedisOmError name _ => name = ""
  | _ => True
  end.

(** What a caller sees of an error that a method of the adapter lets
    out: an error of redis-om that has a name has become a
    [GeneralError] with its message ([Error] when it has none); any
    other error is itself. *)
Definition surfaced (e : error) : error :=
  match e with
  | RedisOmError name message =>
      if decide (name = "") then e
      else GeneralError (if decide (message = "") then "Error" else message)
  | _ => e
  end.

(** The calls that set the order of the results, one per key of a sort
    directive. *)
Definition sort_calls (props : list (string * value)) : list call :=
  (λ kd, SortBy kd.1 (sort_direction kd.2)) <$> props.

(** The part of the matches a find without pagination returns: the
    matches from [skip] on, and no more than the limit when there is one. *)
Definition window (l : limit) (skip : Z) (matches : list Entity) : list Entity :=
  match l with
  | Lim n => take (Z.to_nat n) (drop (Z.to_nat skip) matches)
  | NaN => drop (Z.to_nat skip) matches
  end.

(** A step of the builder that only adds calls: on a search it gives what
    it gives on the empty search, after the calls that were there. *)
Definition appends (f : list call → result (list call)) : Prop :=
  ∀ search, f search = rbind (f []) (λ calls, Ok (search ++ calls)).

(** The translations of the items of a combinator, one after the other:
    [Some] list of the sub-searches when every item translates. *)
Fixpoint translations (raises : call → option error)
    (queries : list (list (string * value))) : result (list (list call)) :=
  match queries with
  | [] => Ok []
  | q :: rest =>
      rbind (redisQuery raises [] q None)
        (λ sub, rbind (translations raises rest) (λ subs, Ok (sub :: subs)))
  end.

(** The field selection of a call, and the filter that is left of its
    query. *)
Definition selection (self : Adapter) (params : Params) : option (list string) :=
  f_select (filterQuery self params).1.2.

Definition filter_of (self : Adapter) (params : Params) : list (string * value) :=
  (filterQuery self params).2.

(** A record that passes the identity check of a lookup
    ([idField && !entity[idField]] is false). *)
Definition identity_check (idField : string) (record : gmap string value) : bool :=
  String.eqb idField "" || truthy_opt (record !! idField).

(** The world after the round trips [cmds] that the store answered, with
    the records [s]. *)
Definition after (w : World) (cmds : list command)
    (s : gmap string (gmap string value)) : World :=
  mkWorld s (log w ++ cmds) (drawn w) [].

(** A computation that, when it fails, leaves the records of the store
    as they were. *)
Definition fails_clean {A : Type} (m : M A) : Prop :=
  ∀ w e w', m w = (Err e, w') → store w' = store w.

(** A computation whose failures are all normalized. *)
Definition fails_normalized {A : Type} (m : M A) : Prop :=
  ∀ w e w', m w = (Err e, w') → normalized e.

(** The search of a lookup with a filter: the translation of the filter,
    then the clause for the id, [search.and(idField).eq(id)]. *)
Definition get_search (raises : call → option error) (self : Adapter)
    (id : string) (params : Params) : result (list call) :=
  rbind (redisQuery raises [] (filter_of self params) None)
    (λ search, invoke raises search
                 (AndEq (opt_id (getOptions self params)) (VStr id))).

(** A payload whose identity, if it has one, is a string. *)
Definition keyed (idField : string) (item : gmap string value) : Prop :=
  match item !! idField with
  | None | Some (VStr _) => True
  | Some _ => False
  end.

(** A value that is no string and no list: a number, a boolean, [null],
    a date, an object. [repository.expire] has nothing to map over. *)
Definition no_ids (v : value) : Prop :=
  match v with
  | VStr _ | VArr _ => False
  | _ => True
  end.

(** The key the time to live of a new record is set on: the identity the
    record has, which is its key unless the payload has brought its own. *)
Definition expiry_key (idField key : string) (item : gmap string value) : string :=
  match item !! idField with
  | Some (VStr own) => own
  | _ => key
  end.



(** *** Fixtures *)

(** The service of the test suite: records identified by [uuid], no
    pagination, no multi. *)
Definition people (expiration : option Z) : Adapter :=
  mkAdapter (mkOptions "uuid" None (MultiFlag false)) expiration.

Definition doug : gmap string value :=
  {[ "name" := VStr "Doug"; "age" := VNum 32 ]}.

(** An empty store that never fails. *)
Definition fresh : World := mkWorld ∅ [] 0 [].

(** A store that holds Doug under the key [a]. *)
Definition with_doug : World :=
  mkWorld {[ "a" := <["uuid" := VStr "a"]> doug ]} [] 0 [].

(** The service of the batch expiration test: one second to live, and
    [create] allowed several records. *)
Definition batch_people : Adapter :=
  mkAdapter (mkOptions "uuid" None (MultiList ["create"])) (Some 1).

(** [{ refreshExpiration: true }] *)
Definition refreshing : Params := mkParams None PaginateUndefined true.

(** [{ query: { $select: ['name'] } }] *)
Definition selecting_name : Params :=
  mkParams (Some (mkQuery (Some ["name"]) None None None [])) PaginateUndefined false.

(** [{ query: { $limit: limit, $skip: skip } }] *)
Definition limited (limit : Z) (skip : option Z) (p : paginate_param) : Params :=
  mkParams (Some (mkQuery None None (Some limit) skip [])) p false.

(** [{ query: { name: 'Bob' } }] *)
Definition named_bob : Params :=
  mkParams (Some (mkQuery None None None None [("name", VStr "Bob")]))
           PaginateUndefined false.

(** Three records under the keys [a], [b] and [c]. *)
Definition three_people : World :=
  mkWorld {[ "a" := <["uuid" := VStr "a"]> doug;
             "b" := {[ "uuid" := VStr "b"; "name" := VStr "Bob" ]};
             "c" := {[ "uuid" := VStr "c"; "name" := VStr "Alice" ]} ]} [] 0 [].

(** The same service with pages of five records. *)
Definition paged_people : Adapter :=
  mkAdapter (mkOptions "uuid" (Some (mkPagination (Some 5) None)) (MultiFlag false)) None.

(** Two validations of the query: one that rejects every query, one that
    lets the query through as it is. *)
Definition reject_all : Adapter → Params → result AdapterQuery :=
  λ _ _, Err (BadRequest "Invalid query parameter").

Definition let_through : Adapter → Params → result AdapterQuery :=
  λ _ params, Ok (default empty_query (p_query params)).

(** A store that takes the first save and fails the round trip after it;
    a store that fails the first round trip. *)
Definition failing_second (e : error) : World := mkWorld ∅ [] 0 [None; Some e].
Definition failing_first (e : error) : World := mkWorld ∅ [] 0 [Some e].

Definition timeout : error := OtherError "Error" "Socket closed unexpectedly".

(** ** What a computation sends to the store *)

Create HintDb sends discriminated.

Section Sends.
Context [A B : Type] (P : command → Prop).

Lemma sends_silent (m : M A) :
  (∀ w, log (m w).2 = log w) → sends P m.
Proof.
  intros H w. exists []. rewrite H, app_nil_r. split; [done | constructor].
Qed.

Lemma sends_ret (a : A) : sends P (mret a).
Proof. by apply sends_silent. Qed.

Lemma sends_throw (e : error) : sends P (mthrow e : M A).
Proof. by apply sends_silent. Qed.

Lemma sends_lift (r : result A) : sends P (lift r).
Proof. by apply sends_silent. Qed.

Lemma sends_bind (m : M A) (k : A → M B) :
  sends P m → (∀ a, sends P (k a)) → sends P (m ≫= k).
Proof.
  intros Hm Hk w. unfold mbind, M_bind.
  destruct (Hm w) as (c1 & E1 & F1).
  destruct (m w) as [[a | e] w1]; simpl in *.
  - destruct (Hk a w1) as (c2 & E2 & F2).
    exists (c1 ++ c2). rewrite E2, E1, app_assoc.
    split; [done | by apply Forall_app].
  - by exists c1.
Qed.

Lemma sends_try_catch (m : M A) (h : error → M A) :
  sends P m → (∀ e, sends P (h e)) → sends P (try_catch m h).
Proof.
  intros Hm Hh w. unfold try_catch.
  destruct (Hm w) as (c1 & E1 & F1).
  destruct (m w) as [[a | e] w1]; simpl in *.
  - by exists c1.
  - destruct (Hh e w1) as (c2 & E2 & F2).
    exists (c1 ++ c2). rewrite E2, E1, app_assoc.
    split; [done | by apply Forall_app].
Qed.

Lemma sends_handled (m : M A) : sends P m → sends P (handled m).
Proof.
  intros Hm. apply sends_try_catch; [done |].
  intros e. by apply sends_silent.
Qed.

Lemma sends_roundtrip (c : command) : P c → sends P (roundtrip c).
Proof.
  intros Hc w. exists [c]. unfold roundtrip.
  split; [| by repeat constructor].
  by destruct (faults w) as [| [e |] rest].
Qed.

Lemma sends_if (b : bool) (m1 m2 : M A) :
  sends P m1 → sends P m2 → sends P (if b then m1 else m2).
Proof. by destruct b. Qed.

End Sends.

Lemma sends_promise_all [A B : Type] (P : command → Prop) (f : A → M B)
    (items : list A) :
  (∀ a, sends P (f a)) → sends P (promise_all f items).
Proof.
  intros Hf. induction items as [| item rest IH]; simpl.
  - apply sends_ret.
  - intros w. destruct (Hf item w) as (c1 & E1 & F1).
    destruct (f item w) as [r w1]; simpl in *.
    destruct (IH w1) as (c2 & E2 & F2).
    destruct (promise_all f rest w1) as [rs w2]; simpl in *.
    exists (c1 ++ c2). rewrite E2, E1, app_assoc.
    split; [done | by apply Forall_app].
Qed.

Lemma sends_write (P : command → Prop) key data : sends P (write key data).
Proof. by apply sends_silent. Qed.

Lemma sends_unlink (P : command → Prop) key : sends P (unlink key).
Proof. by apply sends_silent. Qed.

Lemma sends_read_store (P : command → Prop) : sends P read_store.
Proof. by apply sends_silent. Qed.

Lemma sends_randomUUID (P : command → Prop) uuid : sends P (randomUUID uuid).
Proof. by apply sends_silent. Qed.

#[export] Hint Resolve sends_ret sends_throw sends_lift sends_handled
  sends_write sends_unlink sends_read_store sends_randomUUID : sends.

(** Splits a computation along its binds and conditionals. *)
Ltac sends_step :=
  lazymatch goal with
  | |- sends _ (mbind _ _) => apply sends_bind; [| intros ?]
  | |- sends _ (try_catch _ _) => apply sends_try_catch; [| intros ?]
  | |- sends _ (handled _) => apply sends_handled
  | |- sends _ (roundtrip _) => apply sends_roundtrip; simpl; try done
  | |- sends _ (promise_all _ _) => apply sends_promise_all; intros ?
  | |- sends _ (if ?b then _ else _) => destruct b
  | |- sends _ (match ?x with _ => _ end) => destruct x
  | |- sends _ (let '(_, _) := ?x in _) => destruct x
  | |- sends _ _ => by eauto with sends
  end.

Lemma sends_mono [A : Type] (P Q : command → Prop) (m : M A) :
  (∀ c, P c → Q c) → sends P m → sends Q m.
Proof.
  intros HPQ Hm w. destruct (Hm w) as (cmds & E & F).
  exists cmds. split; [done |]. eapply Forall_impl; eauto.
Qed.

Section Traffic.
Variable raises : call → option error.
Variable matching : list call → gmap string (gmap string value) → list Entity.
Variable uuid : nat → string.

(** [_get] only looks up. *)
Lemma get_sends self id params :
  sends (λ c, is_lookup c = true) (_get raises matching self id params).
Proof.
  unfold _get, repository_fetch, search_return_all.
  repeat sends_step.
Qed.

(** [_patch] looks the record up and saves it: no other round trip, and
    none that sets a time to live, whatever the parameters. *)
Lemma patch_sends self id data params :
  sends (λ c, is_expire c = false) (_patch raises matching self id data params).
Proof.
  unfold _patch, repository_save_entity, repository_save.
  repeat sends_step.
  eapply sends_mono; [| apply get_sends]. by intros [].
Qed.

Lemma update_sends self id data params :
  sends (λ c, is_expire c = false) (_update raises matching self id data params).
Proof.
  unfold _update, repository_fetch, repository_save, search_return_all.
  repeat sends_step.
Qed.

(** The list branch of [_create] saves and does nothing else. *)
Lemma create_many_sends self items params :
  sends (λ c, is_expire c = false) (_create uuid self (Many items) params).
Proof.
  unfold _create, repository_save.
  repeat sends_step.
Qed.
End Traffic.

(** ** The query translator *)

Lemma rbind_Ok_r [A : Type] (r : result A) : rbind r (λ a, Ok a) = r.
Proof. by destruct r. Qed.

Lemma rethrow_idem (e : error) : rethrow (rethrow e) = rethrow e.
Proof.
  destruct e as [| | | | name message |]; simpl; try done.
  unfold errorHandler.
  destruct (String.eqb name "") eqn:E; simpl; [| done].
  unfold errorHandler. by rewrite E.
Qed.

Lemma handle_idem [A : Type] (r : result A) : handle (handle r) = handle r.
Proof. destruct r; simpl; [done |]. by rewrite rethrow_idem. Qed.

(** Settles the membership of a concrete key in a concrete list. *)
Ltac keys := unfold reserved in *; set_unfold; naive_solver.

Section Translator.
Variable raises : call → option error.

(** A key that is no combinator and no sort directive, with a value that
    is not an object, reaches the operator table. *)
Lemma redisQuery_leaf search key v parentKey :
  key ∉ reserved → is_object v = false →
  redisQuery raises search [(key, v)] parentKey
  = handle (dispatch raises search (default key parentKey) key v).
Proof.
  intros Hkey Hv. unfold redisQuery. simpl.
  repeat (case_decide; [subst; exfalso; apply Hkey; keys |]).
  rewrite rbind_Ok_r. by destruct v.
Qed.

(** A field paired with an object is a scope: its keys are translated
    with the field as their column. *)
Lemma redisQuery_scope search field props :
  field ∉ reserved →
  redisQuery raises search [(field, VObj props)] None
  = handle (redisQuery raises search props (Some field)).
Proof.
  intros Hkey. unfold redisQuery. simpl.
  repeat (case_decide; [subst; exfalso; apply Hkey; keys |]).
  by rewrite rbind_Ok_r.
Qed.

Lemma redisQuery_operator search field op v :
  field ∉ reserved → op ∉ reserved → is_object v = false →
  redisQuery raises search [(field, VObj [(op, v)])] None
  = handle (dispatch raises search field op v).
Proof.
  intros Hfield Hop Hv.
  rewrite redisQuery_scope, redisQuery_leaf by done.
  apply handle_idem.
Qed.

(** [$in] and [$nin] are in the table with an empty method name, which
    is falsy: the key falls to the equality branch. *)
Lemma membership_dispatch search field op v :
  field ∉ reserved → op ∈ ["$in"; "$nin"] → is_object v = false →
  redisQuery raises search [(field, VObj [(op, v)])] None
  = handle (invoke raises search (WhereEquals field v)).
Proof.
  intros Hfield Hop Hv.
  assert (op = "$in" ∨ op = "$nin") as [-> | ->] by keys;
    by rewrite redisQuery_operator; [| | keys |].
Qed.
End Translator.

(** C3. [{ age: { $in: [1, 2] } }] and [{ age: { $nin: [1, 2] } }] are
    translated without any error, as an equality of the field with the
    list: no "not implemented" error is raised. *)
Theorem membership_falls_to_equality :
  redisQuery accept [] [("age", VObj [("$in", VArr [VNum 1; VNum 2])])] None
  = Ok [WhereEquals "age" (VArr [VNum 1; VNum 2])]
  ∧ redisQuery accept [] [("age", VObj [("$nin", VArr [VNum 1; VNum 2])])] None
    = Ok [WhereEquals "age" (VArr [VNum 1; VNum 2])].
Proof. split; reflexivity. Qed.


Lemma redisQuery_nil (raises : call → option error) search parentKey :
  redisQuery raises search [] parentKey = Ok search.
Proof. done. Qed.




Section InPlace.
Variable raises : call → option error.
Variables before after inner_before inner_after : list (string * value).


End InPlace.




(** What the code makes of that filter, and of a key that is a name every
    object inherits: the read of the table yields a member that is no
    method name of the builder, and the call throws. *)
Lemma object_operand_clause :
  redisQuery accept [] [("age", VObj [("$ne", VObj [("x", VNum 1)])])] None
  = Ok [WhereEquals "$ne" (VNum 1)].
Proof. reflexivity. Qed.

Lemma inherited_name_throws (raises : call → option error) search field v :
  field ∉ reserved → field ∈ Object_prototype → is_object v = false →
  ∃ e, redisQuery raises search [(field, v)] None = Err e.
Proof.
  intros Hfield Hin Hv. rewrite redisQuery_leaf by done. simpl.
  assert (METHODS field = Inherited) as Hm.
  { unfold METHODS. rewrite bool_decide_eq_true_2 by done.
    repeat (case_decide; [subst; exfalso; revert Hin; unfold Object_prototype;
                          set_unfold; naive_solver |]).
    done. }
  unfold dispatch. rewrite Hm. unfold invoke.
  destruct (raises _); simpl; eauto.
Qed.

(** ** Guards *)

Lemma allowsMulti_list self params methods :
  multi (options self) = MultiList methods → "create" ∉ methods →
  allowsMulti self "create" params = false.
Proof.
  intros Hmulti Hnot. unfold allowsMulti, getOptions. simpl.
  rewrite Hmulti. by apply bool_decide_eq_false.
Qed.

(** C9. [_patch] and [_remove] with a null id fail with
    [MethodNotAllowed] and leave the world as it was, whatever the
    service allows; so does [create] with a list when [create] is not
    allowed several records. Nothing was sent to the store. *)
Theorem guards_fail_before_store_access
    (raises : call → option error)
    (matching : list call → gmap string (gmap string value) → list Entity)
    (uuid : nat → string) (self : Adapter) (data : gmap string value)
    (items : list (gmap string value)) (params : Params) (w : World) :
  _patch raises matching self None data params w
  = (Err (MethodNotAllowed "Cannot patch multiple entries without an ID"), w)
  ∧ _remove raises matching self None params w
    = (Err (MethodNotAllowed "Cannot remove multiple entries without an ID"), w)
  ∧ (allowsMulti self "create" params = false →
     create uuid self (Many items) params w
     = (Err (MethodNotAllowed "Can not create multiple entries"), w)).
Proof.
  split; [done | split; [done |]].
  intros Hmulti. unfold create. by rewrite Hmulti.
Qed.

(** The three guards on a service that allows no multi, and the two
    guards of the adapter on a service that allows every multi. *)
Lemma guards_fail_before_store_access_witness :
  allowsMulti (people (Some 1)) "create" empty_params = false
  ∧ (_patch accept scan (people (Some 1)) None doug empty_params with_doug
     = (Err (MethodNotAllowed "Cannot patch multiple entries without an ID"), with_doug)
     ∧ _remove accept scan (people (Some 1)) None empty_params with_doug
       = (Err (MethodNotAllowed "Cannot remove multiple entries without an ID"), with_doug)
     ∧ create numbered (people (Some 1)) (Many [doug; doug]) empty_params with_doug
       = (Err (MethodNotAllowed "Can not create multiple entries"), with_doug))
  ∧ allowsMulti (with_multi (MultiFlag true) (people None)) "patch" empty_params = true
  ∧ allowsMulti (with_multi (MultiFlag true) (people None)) "remove" empty_params = true
  ∧ _patch accept scan (with_multi (MultiFlag true) (people None)) None doug
      empty_params with_doug
    = (Err (MethodNotAllowed "Cannot patch multiple entries without an ID"), with_doug)
  ∧ _remove accept scan (with_multi (MultiFlag true) (people None)) None
      empty_params with_doug
    = (Err (MethodNotAllowed "Cannot remove multiple entries without an ID"), with_doug).
Proof.
  split; [reflexivity |].
  split.
  { destruct (guards_fail_before_store_access accept scan numbered (people (Some 1))
                doug [doug; doug] empty_params with_doug) as (Hpatch & Hremove & Hcreate).
    split; [exact Hpatch |]. split; [exact Hremove |]. exact (Hcreate eq_refl). }
  split; [reflexivity |]. split; [reflexivity |].
  destruct (guards_fail_before_store_access accept scan numbered
              (with_multi (MultiFlag true) (people None))
              doug [doug; doug] empty_params with_doug) as (Hpatch & Hremove & _).
  split; [exact Hpatch | exact Hremove].
Defined.

(** ** Lookup *)

Section Lookup.
Variable raises : call → option error.
Variable matching : list call → gmap string (gmap string value) → list Entity.

(** The failures the adapter meets on the way. A store that fails the
    fetch: *)
Lemma get_store_failure self id params w e rest :
  non_empty (filterQuery self params).2 = false →
  faults w = Some e :: rest →
  (_get raises matching self id params w).1 = Err (not_found id).
Proof.
  intros Hquery Hfaults. unfold _get, try_catch.
  destruct (filterQuery self params) as [[pg filters] query]. simpl in Hquery.
  rewrite Hquery. unfold repository_fetch, mbind, M_bind, roundtrip.
  by rewrite Hfaults.
Qed.

(** A builder that refuses the query: *)
Lemma get_builder_failure self id params w e :
  non_empty (filterQuery self params).2 = true →
  redisQuery raises [] (filterQuery self params).2 None = Err e →
  (_get raises matching self id params w).1 = Err (not_found id).
Proof.
  intros Hquery Hbuild. unfold _get, try_catch.
  destruct (filterQuery self params) as [[pg filters] query]. simpl in *.
  rewrite Hquery. unfold mbind, M_bind, lift. by rewrite Hbuild.
Qed.

(** A filter that nothing matches: *)
Lemma get_no_match self id params w search search' :
  non_empty (filterQuery self params).2 = true →
  redisQuery raises [] (filterQuery self params).2 None = Ok search →
  invoke raises search (AndEq (opt_id (getOptions self params)) (VStr id))
  = Ok search' →
  matching search' (store w) = [] →
  (_get raises matching self id params w).1 = Err (not_found id).
Proof.
  intros Hquery Hbuild Hand Hnone. unfold _get, try_catch.
  destruct (filterQuery self params) as [[pg filters] query]. simpl in *.
  rewrite Hquery. unfold mbind, M_bind, lift. rewrite Hbuild, Hand.
  unfold search_return_all, mbind, M_bind.
  destruct (roundtrip (ReturnAll search') w) as [[[] | e] w1] eqn:E; [| done].
  assert (store w1 = store w) as Hstore.
  { unfold roundtrip in E. by destruct (faults w) as [| [?|] ?]; simplify_eq. }
  unfold read_store, mret, M_ret. by rewrite Hstore, Hnone.
Qed.

(** A record that is not there, or whose identity is falsy: *)
Lemma get_falsy_identity self id params w :
  non_empty (filterQuery self params).2 = false →
  opt_id (getOptions self params) ≠ "" →
  truthy_opt (default ∅ (store w !! id) !! opt_id (getOptions self params)) = false →
  (_get raises matching self id params w).1 = Err (not_found id).
Proof.
  intros Hquery Hid Hfalsy. unfold _get, try_catch.
  destruct (filterQuery self params) as [[pg filters] query]. simpl in *.
  rewrite Hquery. unfold repository_fetch, mbind, M_bind.
  destruct (roundtrip (Fetch id) w) as [[[] | e] w1] eqn:E; [| done].
  assert (store w1 = store w) as Hstore.
  { unfold roundtrip in E. by destruct (faults w) as [| [?|] ?]; simplify_eq. }
  unfold read_store, mret, M_ret. simpl. rewrite Hstore, Hfalsy.
  apply String.eqb_neq in Hid. by rewrite Hid.
Qed.
(** The lookup with a filter. What the call returns, whatever the
    store does: *)
Lemma get_filtered self id params w :
  non_empty (filter_of self params) = true →
  (_get raises matching self id params w).1
  = match get_search raises self id params, faults w with
    | Ok search, ([] | None :: _) =>
        match matching search (store w) with
        | first :: _ =>
            if identity_check (opt_id (getOptions self params)) (fields first)
            then Ok (select_fields (selection self params)
                       (opt_id (getOptions self params)) first)
            else Err (not_found id)
        | [] => Err (not_found id)
        end
    | _, _ => Err (not_found id)
    end.
Proof.
  unfold filter_of, selection, get_search, filter_of, identity_check.
  intros Hquery. unfold _get, try_catch.
  destruct (filterQuery self params) as [[pg filters] query]. simpl in *.
  rewrite Hquery. unfold mbind, M_bind, lift.
  destruct (redisQuery raises [] query None) as [search | e]; simpl; [| done].
  destruct (invoke raises search _) as [search' | e]; simpl; [| done].
  unfold search_return_all, mbind, M_bind, roundtrip, read_store, mret, M_ret.
  destruct (faults w) as [| [e |] rest]; simpl; try done;
    (destruct (matching search' (store w)) as [| first others]; simpl; [done |]);
    by destruct (String.eqb _ ""), (truthy_opt _).
Qed.

(** The same lookup, by its failures. *)
Lemma get_filtered_failure self id params w :
  non_empty (filter_of self params) = true →
  (∀ e, get_search raises self id params = Err e →
     (_get raises matching self id params w).1 = Err (not_found id))
  ∧ (∀ e rest, faults w = Some e :: rest →
       (_get raises matching self id params w).1 = Err (not_found id))
  ∧ (∀ search, get_search raises self id params = Ok search →
       matching search (store w) = [] →
       (_get raises matching self id params w).1 = Err (not_found id))
  ∧ (∀ search first others, get_search raises self id params = Ok search →
       matching search (store w) = first :: others →
       identity_check (opt_id (getOptions self params)) (fields first) = false →
       (_get raises matching self id params w).1 = Err (not_found id)).
Proof.
  intros Hquery. rewrite get_filtered by done.
  split; [| split; [| split]].
  - by intros e ->.
  - intros e rest ->. by destruct (get_search _ _ _ _).
  - intros search -> ->. by destruct (faults w) as [| [] ?].
  - intros search first others -> -> ->. by destruct (faults w) as [| [] ?].
Qed.

(** C7. A get ends in a record or in [NotFound] for the requested id, and
    every failure on the way comes out as that [NotFound]: a store that
    fails the round trip, by key or by search; a builder that throws on
    the filter or on the clause for the id; a filter that nothing
    matches; a record, fetched by key or found first by the search, whose
    identity is absent or falsy. *)
Theorem get_fails_with_not_found (self : Adapter) (id : string)
    (params : Params) (w : World) :
  let idField := opt_id (getOptions self params) in
  let outcome := (_get raises matching self id params w).1 in
  let filtered := non_empty (filter_of self params) in
  (∃ w', (∃ entity, _get raises matching self id params w = (Ok entity, w'))
         ∨ _get raises matching self id params w = (Err (not_found id), w'))
  ∧ (∀ e rest, faults w = Some e :: rest → outcome = Err (not_found id))
  ∧ (∀ e, filtered = true → get_search raises self id params = Err e →
       outcome = Err (not_found id))
  ∧ (∀ search, filtered = true → get_search raises self id params = Ok search →
       matching search (store w) = [] → outcome = Err (not_found id))
  ∧ (filtered = false →
     identity_check idField (default ∅ (store w !! id)) = false →
     outcome = Err (not_found id))
  ∧ (∀ search first others, filtered = true →
       get_search raises self id params = Ok search →
       matching search (store w) = first :: others →
       identity_check idField (fields first) = false →
       outcome = Err (not_found id)).
Proof.
  intros idField outcome filtered. subst outcome filtered idField.
  split; [| split; [| split; [| split; [| split]]]].
  - unfold _get, try_catch.
    match goal with |- context [?body w] => destruct (body w) as [[entity | e] w'] end.
    + exists w'. left. by exists entity.
    + exists w'. by right.
  - intros e rest Hfaults.
    destruct (non_empty (filter_of self params)) eqn:Hquery.
    + destruct (get_filtered_failure self id params w Hquery) as (_ & Hstore & _).
      by eapply Hstore.
    + by eapply get_store_failure.
  - intros e Hquery Hbuild.
    destruct (get_filtered_failure self id params w Hquery) as (Hrefused & _).
    by eapply Hrefused.
  - intros search Hquery Hbuild Hnone.
    destruct (get_filtered_failure self id params w Hquery) as (_ & _ & Hempty & _).
    by eapply Hempty.
  - intros Hquery Hfalsy. unfold identity_check in Hfalsy.
    apply orb_false_elim in Hfalsy as [Hid Hfalsy].
    apply get_falsy_identity; [done | by apply String.eqb_neq | done].
  - intros search first others Hquery Hbuild Hmatch Hfalsy.
    destruct (get_filtered_failure self id params w Hquery) as (_ & _ & _ & Hfirst).
    by eapply Hfirst.
Qed.
End Lookup.

(** A store that fails the fetch, a filter that nothing matches, and a
    key that holds no record. *)
Lemma get_fails_with_not_found_witness :
  (_get accept scan (people None) "a" empty_params (failing_first timeout)).1
  = Err (not_found "a")
  ∧ (_get accept scan (people None) "a" named_bob with_doug).1 = Err (not_found "a")
  ∧ (_get accept scan (people None) "b" empty_params with_doug).1 = Err (not_found "b").
Proof.
  destruct (get_fails_with_not_found accept scan (people None) "a" empty_params
              (failing_first timeout)) as (_ & Hstore & _).
  destruct (get_fails_with_not_found accept scan (people None) "a" named_bob
              with_doug) as (_ & _ & _ & Hnone & _).
  destruct (get_fails_with_not_found accept scan (people None) "b" empty_params
              with_doug) as (_ & _ & _ & _ & Hfalsy & _).
  split; [exact (Hstore timeout [] eq_refl) |].
  split; [exact (Hnone _ eq_refl eq_refl eq_refl) |].
  exact (Hfalsy eq_refl eq_refl).
Defined.

(** ** Create *)

(** Running a bind: the first computation, then the rest from the world it
    leaves. *)
Lemma bind_run [A B : Type] (m : M A) (k : A → M B) (w : World) :
  (m ≫= k) w
  = match m w with
    | (Ok a, w') => k a w'
    | (Err e, w') => (Err e, w')
    end.
Proof. reflexivity. Qed.

Lemma roundtrip_calm c w :
  faults w = [] →
  roundtrip c w = (Ok (), mkWorld (store w) (log w ++ [c]) (drawn w) []).
Proof. intros H. unfold roundtrip. by rewrite H. Qed.

Lemma roundtrip_next c w outcome rest :
  faults w = outcome :: rest →
  roundtrip c w
  = (match outcome with Some e => Err e | None => Ok () end,
     mkWorld (store w) (log w ++ [c]) (drawn w) rest).
Proof. intros H. unfold roundtrip. rewrite H. by destruct outcome. Qed.

Lemma save_calm key data w :
  faults w = [] →
  repository_save key data w
  = (Ok (mkEntity key data),
     mkWorld (<[key := data]> (store w)) (log w ++ [Save key data]) (drawn w) []).
Proof.
  intros H. unfold repository_save, mbind, M_bind.
  by rewrite roundtrip_calm.
Qed.

Lemma select_fields_eid selection idField entity :
  eid (select_fields selection idField entity) = eid entity.
Proof. by destruct selection. Qed.

Lemma created_length uuid idField n items :
  length (created uuid idField n items) = length items.
Proof.
  revert n. induction items as [| item rest IH]; intros n; simpl; [done |].
  by rewrite IH.
Qed.

Lemma created_lookup uuid idField n items i item :
  items !! i = Some item →
  created uuid idField n items !! i
  = Some (mkEntity (uuid (n + i)%nat) (with_identity idField (uuid (n + i)%nat) item)).
Proof.
  revert n i. induction items as [| first rest IH]; intros n i Hi; [done |].
  destruct i as [| i]; simpl in *.
  - simplify_eq. by rewrite Nat.add_0_r.
  - rewrite (IH (S n) i Hi). by replace (S n + i)%nat with (n + S i)%nat by lia.
Qed.

Lemma created_keys uuid idField n items :
  eid <$> created uuid idField n items = uuid <$> seq n (length items).
Proof.
  revert n. induction items as [| item rest IH]; intros n; simpl; [done |].
  by rewrite IH.
Qed.

Lemma with_identity_lookup idField key item :
  with_identity idField key item !! idField
  = Some (default (VStr key) (item !! idField)).
Proof.
  unfold with_identity. rewrite lookup_union, lookup_singleton_eq.
  by destruct (item !! idField).
Qed.

(** The field selection keeps the identity field. *)
Lemma select_fields_identity selection idField entity :
  fields (select_fields selection idField entity) !! idField
  = fields entity !! idField.
Proof.
  destruct selection as [selected |]; [| done]. simpl.
  destruct (fields entity !! idField) as [v |] eqn:E.
  - apply map_lookup_filter_Some. split; [done |]. by right.
  - apply map_lookup_filter_None. left. done.
Qed.

(** The identity of a new record whose payload has none, or a string. *)
Lemma with_identity_keyed idField key item :
  keyed idField item →
  with_identity idField key item !! idField
  = Some (VStr (expiry_key idField key item)).
Proof.
  unfold keyed, expiry_key. rewrite with_identity_lookup.
  by destruct (item !! idField) as [[] |].
Qed.

(** [expire] on a key, and on a record whose identity is a string, is one
    round trip. *)
Lemma expire_key self key seconds :
  expire self (inl key) seconds = roundtrip (Expire key seconds).
Proof. done. Qed.

Lemma expire_record self entity id seconds :
  fields entity !! opt_id (options self) = Some (VStr id) →
  expire self (inr entity) seconds = roundtrip (Expire id seconds).
Proof. intros H. unfold expire. by rewrite H. Qed.

(** On a record whose identity is absent, or no string and no list, it
    throws before anything is sent. *)
Lemma expire_record_throws self entity seconds w :
  from_option no_ids True (fields entity !! opt_id (options self)) →
  expire self (inr entity) seconds w
  = (Err (OtherError "TypeError" "ids.map is not a function"), w).
Proof.
  intros H. unfold expire.
  by destruct (fields entity !! opt_id (options self)) as [[] |].
Qed.

Section Create.
Variable uuid : nat → string.

(** A single create on a store that answers: the save, then the
    [Expire] when a default time to live is configured. *)
Lemma single_create_calm (self : Adapter) (item : gmap string value)
    (params : Params) (w : World) :
  faults w = [] →
  let idField := opt_id (options self) in
  let key := uuid (drawn w) in
  let record := with_identity idField key item in
  (configured self = true → keyed idField item) →
  _create uuid self (One item) params w
  = (Ok (One (select_fields (selection self params) idField (mkEntity key record))),
     mkWorld (<[key := record]> (store w))
       (log w ++ Save key record
          :: (if configured self
              then [Expire (expiry_key idField key item) (default 0 (expiration self))]
              else []))
       (S (drawn w)) []).
Proof.
  intros Hcalm idField key record Hkeyed. subst idField key record.
  unfold _create, handled, try_catch, selection, configured in *.
  destruct (filterQuery self params) as [[pg filters] query]. simpl.
  rewrite bind_run. unfold randomUUID at 1.
  rewrite bind_run, save_calm by done. rewrite bind_run.
  destruct (truthyZ (expiration self)); [| done].
  erewrite expire_record;
    [| by rewrite select_fields_identity; apply with_identity_keyed, Hkeyed].
  rewrite roundtrip_calm by done. simpl. by rewrite <- app_assoc.
Qed.

(** With a default time to live, a single create whose payload brings an
    identity that is no string and no list saves the record and then
    throws: [repository.expire] cannot map over the identity. *)
Lemma single_create_throws (self : Adapter) (item : gmap string value)
    (params : Params) (w : World) (v : value) :
  faults w = [] → configured self = true →
  item !! opt_id (options self) = Some v → no_ids v →
  let key := uuid (drawn w) in
  let record := with_identity (opt_id (options self)) key item in
  _create uuid self (One item) params w
  = (Err (OtherError "TypeError" "ids.map is not a function"),
     mkWorld (<[key := record]> (store w)) (log w ++ [Save key record])
       (S (drawn w)) []).
Proof.
  intros Hcalm Hconfigured Hitem Hv key record. subst key record.
  unfold _create, handled, try_catch, configured in *.
  destruct (filterQuery self params) as [[pg filters] query]. simpl.
  rewrite bind_run. unfold randomUUID at 1.
  rewrite bind_run, save_calm by done. rewrite bind_run, Hconfigured.
  rewrite expire_record_throws; [done |].
  rewrite select_fields_identity. simpl. by rewrite with_identity_lookup, Hitem.
Qed.

(** On a store that does not fail, the callbacks of the list branch
    draw one identifier and send one save per item, in order. *)
Lemma promise_all_calm idField items w :
  faults w = [] →
  promise_all
    (λ item, u ← randomUUID uuid;
             repository_save u (with_identity idField u item)) items w
  = (Ok (created uuid idField (drawn w) items),
     mkWorld (stored (created uuid idField (drawn w) items) (store w))
             (log w ++ saves (created uuid idField (drawn w) items))
             (drawn w + length items) []).
Proof.
  revert w. induction items as [| item rest IH]; intros w Hcalm; simpl.
  - unfold mret, M_ret. destruct w; simpl in *; subst.
    by rewrite app_nil_r, Nat.add_0_r.
  - unfold mbind at 1, M_bind at 1, randomUUID at 1.
    rewrite save_calm by done. simpl.
    rewrite IH by done. simpl.
    rewrite <- app_assoc. simpl.
    by replace (drawn w + S (length rest))%nat
      with (S (drawn w + length rest)) by lia.
Qed.

Lemma create_many_calm self items params w :
  faults w = [] →
  let idField := opt_id (getOptions self params) in
  let entities := created uuid idField (drawn w) items in
  _create uuid self (Many items) params w
  = (Ok (Many (select_fields (f_select (filterQuery self params).1.2) idField
                 <$> entities)),
     mkWorld (stored entities (store w)) (log w ++ saves entities)
             (drawn w + length items) []).
Proof.
  intros Hcalm idField entities. unfold _create, handled, try_catch.
  destruct (filterQuery self params) as [[pg filters] query]. simpl.
  by rewrite bind_run, promise_all_calm.
Qed.

(** [_create] does not read the [multi] option. *)
Lemma create_reads_no_multi m self data params w :
  _create uuid (with_multi m self) data params w = _create uuid self data params w.
Proof. by destruct self as [[i p m'] e]. Qed.

(** C10. [_create] on a list does not look at the multi allow-list: on
    a store that does not fail it saves every item under a key of its
    own and returns them all, also for a service whose [create] refuses
    the same list before anything is sent. *)
Theorem internal_create_ignores_allow_list (self : Adapter)
    (items : list (gmap string value)) (params : Params) (w : World) :
  faults w = [] →
  allowsMulti self "create" params = false →
  let idField := opt_id (getOptions self params) in
  let entities := created uuid idField (drawn w) items in
  _create uuid self (Many items) params w
  = (Ok (Many (select_fields (f_select (filterQuery self params).1.2) idField
                 <$> entities)),
     mkWorld (stored entities (store w)) (log w ++ saves entities)
             (drawn w + length items) [])
  ∧ length entities = length items
  ∧ create uuid self (Many items) params w
    = (Err (MethodNotAllowed "Can not create multiple entries"), w).
Proof.
  intros Hcalm Hmulti idField entities.
  split; [by apply create_many_calm |].
  split; [apply created_length |].
  unfold create. by rewrite Hmulti.
Qed.
End Create.

Lemma internal_create_ignores_allow_list_witness :
  faults fresh = [] ∧ allowsMulti (people None) "create" empty_params = false
  ∧ length (created numbered "uuid" 0 [doug; doug]) = 2%nat
  ∧ create numbered (people None) (Many [doug; doug]) empty_params fresh
    = (Err (MethodNotAllowed "Can not create multiple entries"), fresh).
Proof.
  split; [reflexivity |]. split; [reflexivity |].
  apply (internal_create_ignores_allow_list numbered (people None)
           [doug; doug] empty_params fresh eq_refl eq_refl).
Defined.

(** ** Expiration *)

Lemma expirations_app (w w' : World) (cmds : list command) :
  log w' = log w ++ cmds →
  Forall (λ c, is_expire c = false) cmds →
  expirations w' = expirations w.
Proof.
  intros Hlog Hcmds. unfold expirations. rewrite Hlog, omap_app.
  rewrite <- (app_nil_r (omap _ (log w))) at 2. f_equal.
  clear Hlog. induction Hcmds as [| c cmds Hc _ IH]; [done |].
  by destruct c.
Qed.

(** A computation that sends no [Expire] leaves the expirations as they
    were. *)
Lemma sends_no_expire [A : Type] (m : M A) (w : World) :
  sends (λ c, is_expire c = false) m →
  expirations (m w).2 = expirations w.
Proof.
  intros Hm. destruct (Hm w) as (cmds & Hlog & Hcmds).
  by eapply expirations_app.
Qed.

(** [_patch] and [_update] set no time to live, with or without
    [refreshExpiration], with or without a default. *)
Lemma patch_update_never_expire raises matching self id data params w :
  expirations (_patch raises matching self id data params w).2 = expirations w
  ∧ expirations (_update raises matching self id data params w).2 = expirations w.
Proof.
  split; apply sends_no_expire; [apply patch_sends | apply update_sends].
Qed.

(** The list branch of [_create] sets no time to live, with or without a
    default. *)
Lemma create_many_never_expires uuid self items params w :
  expirations (_create uuid self (Many items) params w).2 = expirations w.
Proof. apply sends_no_expire, create_many_sends. Qed.

(** C1. With a default of ten seconds and [refreshExpiration: true], a
    patch and an update of a stored record both succeed and send the
    store no [Expire]: the default is not applied. *)
Theorem refresh_expiration_is_not_applied :
  configured (people (Some 10)) = true
  ∧ refreshExpiration refreshing = true
  ∧ (∃ entity w',
       _patch accept scan (people (Some 10)) (Some "a")
         {[ "age" := VNum 33 ]} refreshing with_doug = (Ok entity, w')
       ∧ log w' = [Fetch "a"; Save "a" (fields entity)]
       ∧ expirations w' = [])
  ∧ (∃ entity w',
       _update accept scan (people (Some 10)) (Some "a")
         (<["uuid" := VStr "a"]> doug) refreshing with_doug = (Ok entity, w')
       ∧ log w' = [Fetch "a"; Save "a" (fields entity)]
       ∧ expirations w' = []).
Proof.
  split; [reflexivity |]. split; [reflexivity |].
  split; eexists _, _; (split; [vm_compute; reflexivity |]);
    split; vm_compute; reflexivity.
Qed.

(** C2. With a default of one second, a create of two records saves both
    and sends the store no [Expire], where the create of one record sends
    one for its key. *)
Theorem batch_create_sets_no_expiration :
  configured batch_people = true
  ∧ (∃ first second w',
       create numbered batch_people
         (Many [ {[ "name" := VStr "Batch User 1" ]};
                 {[ "name" := VStr "Batch User 2" ]} ]) empty_params fresh
       = (Ok (Many [first; second]), w')
       ∧ log w' = [Save "uuid-0" (fields first); Save "uuid-1" (fields second)]
       ∧ expirations w' = [])
  ∧ (∃ entity w',
       create numbered batch_people
         (One {[ "name" := VStr "Batch User 1" ]}) empty_params fresh
       = (Ok (One entity), w')
       ∧ expirations w' = [("uuid-0", 1)]).
Proof.
  split; [reflexivity |].
  split; [eexists _, _, _ | eexists _, _];
    (split; [vm_compute; reflexivity |]); repeat split; vm_compute; reflexivity.
Qed.

(** ** Identity *)

Lemma stored_other entities s key :
  key ∉ eid <$> entities → stored entities s !! key = s !! key.
Proof.
  revert s. induction entities as [| e rest IH]; intros s Hkey; [done |].
  simpl in *. apply not_elem_of_cons in Hkey as [Hne Hrest].
  unfold stored in *. simpl. rewrite IH by done. by rewrite lookup_insert_ne.
Qed.

Section Identity.
Variable uuid : nat → string.
Hypothesis uuid_unique : Inj (=) (=) uuid.

Lemma created_fresh idField n m items :
  (m < n)%nat → uuid m ∉ eid <$> created uuid idField n items.
Proof.
  intros Hlt. rewrite created_keys. intros Hin.
  apply list_elem_of_fmap in Hin as (k & Hk & Hseq).
  apply uuid_unique in Hk. apply elem_of_seq in Hseq. lia.
Qed.

Lemma created_NoDup idField n items :
  NoDup (eid <$> created uuid idField n items).
Proof. rewrite created_keys. apply NoDup_fmap_2; [done | apply NoDup_seq]. Qed.

(** Every record of a list stays in the store under its own key: the
    later saves go to other keys. *)
Lemma stored_lookup idField items n s i item :
  items !! i = Some item →
  stored (created uuid idField n items) s !! uuid (n + i)%nat
  = Some (with_identity idField (uuid (n + i)%nat) item).
Proof.
  revert n s i. induction items as [| first rest IH]; intros n s i Hi; [done |].
  destruct i as [| i]; simpl in *.
  - simplify_eq. rewrite Nat.add_0_r.
    change (stored (created uuid idField (S n) rest)
              (<[uuid n := with_identity idField (uuid n) item]> s) !! uuid n
            = Some (with_identity idField (uuid n) item)).
    rewrite stored_other by (apply created_fresh; lia).
    apply lookup_insert_eq.
  - replace (n + S i)%nat with (S n + i)%nat by lia.
    by apply (IH (S n)).
Qed.

(** The keys of a create. On a store that does not fail, create gives
    every record, alone or in a list, a newly drawn identifier as its
    key: the entity returned has that key, the record is stored under
    it, and the keys of one call differ. The identity field of the
    record holds the identifier when the payload has no identity field,
    and the value of the payload when it has one. (With a default time
    to live a single create goes on to [expire], which wants the
    identity to be a string.) *)
Lemma create_identity (self : Adapter) (data : one_or_many (gmap string value))
    (params : Params) (w : World) :
  faults w = [] →
  let idField := opt_id (getOptions self params) in
  (configured self = true → ∀ item, data = One item → keyed idField item) →
  ∃ results w',
    _create uuid self data params w = (Ok results, w')
    ∧ length (members results) = length (members data)
    ∧ NoDup (eid <$> members results)
    ∧ ∀ i item, members data !! i = Some item →
        ∃ entity, members results !! i = Some entity
                  ∧ identified idField (uuid (drawn w + i)%nat) item entity w'.
Proof.
  intros Hcalm idField Hkeyed. destruct data as [item | items].
  - (* one record *)
    eexists _, _. split.
    { apply single_create_calm; [done |]. intros Hc. by apply Hkeyed. }
    split; [done |]. split; [apply NoDup_singleton |].
    intros i item' Hi. apply list_lookup_singleton_Some in Hi as [-> ->].
    eexists. split; [done |]. rewrite Nat.add_0_r.
    split; [apply select_fields_eid |].
    split; [by simpl; rewrite lookup_insert_eq |].
    split; [apply with_identity_lookup |].
    rewrite select_fields_identity. apply with_identity_lookup.
  - (* a list *)
    eexists _, _. split; [by apply create_many_calm |]. simpl.
    fold idField. rewrite length_fmap, created_length. split; [done |].
    split.
    { rewrite <- list_fmap_compose.
      erewrite list_fmap_ext; [apply created_NoDup |].
      intros j e _. apply select_fields_eid. }
    intros i item Hi. eexists. split.
    { rewrite list_lookup_fmap, (created_lookup _ _ _ _ _ _ Hi). done. }
    split; [apply select_fields_eid |].
    split; [by apply stored_lookup |].
    split; [apply with_identity_lookup |].
    rewrite select_fields_identity. apply with_identity_lookup.
Qed.
End Identity.

Lemma numbered_unique : Inj (=) (=) numbered.
Proof.
  intros m n H. unfold numbered in H. injection H as H.
  change (pretty m = pretty n) in H. by apply (inj pretty) in H.
Qed.

Lemma create_identity_example :
  ∃ results w',
    _create numbered (people None) (Many [doug; doug]) empty_params fresh
    = (Ok results, w')
    ∧ NoDup (eid <$> members results).
Proof.
  destruct (create_identity numbered numbered_unique (people None)
              (Many [doug; doug]) empty_params fresh eq_refl)
    as (results & w' & Hrun & _ & Hdup & _); [done |].
  by exists results, w'.
Qed.

(** The claim on identities fails on a payload that carries the identity
    field: the record returned and the record stored keep the value of
    the payload. *)
Lemma payload_identity_is_kept :
  ¬ identity_is_generated numbered (people None)
      (<["uuid" := VStr "mine"]> doug) empty_params fresh.
Proof.
  intros Hclaim.
  edestruct Hclaim as [Hreturned _]; [vm_compute; reflexivity |].
  vm_compute in Hreturned. discriminate.
Qed.

(** C4. A create whose payload carries the identity field, on a service
    with a minute to live: the record is stored under the generated key
    with the identity of the payload in it, and it is returned so; the
    time to live is set on the key the payload names, where no record is;
    by the generated key the record is found, with another identity than
    the one asked for, and under a filter it is not found at all; by
    the identity it carries it is not found. A list stores its records
    the same way. *)
Theorem payload_identity_replaces_generated :
  let payload := <["uuid" := VStr "mine"]> doug in
  let service := people (Some 60) in
  ∃ entity w',
    _create numbered service (One payload) empty_params fresh = (Ok (One entity), w')
    ∧ eid entity = "uuid-0"
    ∧ fields entity !! "uuid" = Some (VStr "mine")
    ∧ store w' = {[ "uuid-0" := payload ]}
    ∧ log w' = [Save "uuid-0" payload; Expire "mine" 60]
    ∧ (_get accept scan service "mine" empty_params w').1 = Err (not_found "mine")
    ∧ (_get accept scan service "uuid-0" empty_params w').1
      = Ok (mkEntity "uuid-0" payload)
    ∧ (_get accept scan service "uuid-0"
         (mkParams (Some (mkQuery None None None None [("name", VStr "Doug")]))
            PaginateUndefined false) w').1
      = Err (not_found "uuid-0")
    ∧ ∃ w'', _create numbered service (Many [payload]) empty_params fresh
             = (Ok (Many [mkEntity "uuid-0" payload]), w'')
             ∧ store w'' = {[ "uuid-0" := payload ]}.
Proof.
  eexists _, _. split; [vm_compute; reflexivity |].
  repeat (split; [vm_compute; reflexivity |]).
  eexists. split; vm_compute; reflexivity.
Qed.

(** ** Find with a zero limit *)

Lemma getLimit_zero (p : option PaginationParams) :
  max_allows_zero p → getLimit (Some 0) p = Lim 0.
Proof.
  intros Hmax. unfold getLimit.
  destruct p as [[d [upper |]] |]; simpl in *; [| by destruct (_ || _) | done].
  destruct (_ || _); [| done]. by rewrite Z.min_l.
Qed.

(** The limit of a paginated call is a number. *)
Lemma getLimit_number (_limit : option Z) (p : PaginationParams) :
  truthyZ (pdefault p) = true → ∃ n, getLimit _limit (Some p) = Lim n.
Proof.
  intros Hdefault. unfold getLimit. rewrite Hdefault. simpl.
  destruct (pmax p); eauto.
Qed.

Section Find.
Variable raises : call → option error.
Variable matching : list call → gmap string (gmap string value) → list Entity.

(** C5, as the code has it. A find with [$limit: 0] whose query the
    builder accepts: without pagination and without a skip it returns
    the empty list and leaves the world as it was; with pagination it
    returns an envelope with no data and the limit zero, after a page
    query and a count query. *)
Theorem find_zero_limit (self : Adapter) (params : Params) (q : AdapterQuery)
    (search : list call) (w : World) :
  p_query params = Some q → q_limit q = Some 0 →
  max_allows_zero (paginate (getOptions self params)) →
  find_search raises self params = Ok search →
  faults w = [] →
  if paginationDisabled self params then
    default 0 (q_skip q) = 0 →
    _find raises matching self params w = (Ok (Items []), w)
  else
    ∃ total w',
      _find raises matching self params w
      = (Ok (Paginated total (Lim 0) (default 0 (q_skip q)) []), w')
      ∧ log w' = log w ++ [ReturnPage search (default 0 (q_skip q)) 0; Count search].
Proof.
  intros Hq Hlimit Hmax Hsearch Hcalm.
  unfold _find, handled, try_catch, filterQuery.
  rewrite Hq. simpl. rewrite Hlimit, getLimit_zero by done.
  rewrite bind_run. unfold lift. rewrite Hsearch.
  destruct (paginationDisabled self params).
  - intros Hskip. rewrite Hskip. reflexivity.
  - unfold search_page, search_count.
    rewrite !bind_run, roundtrip_calm by done. simpl.
    eexists _, _. split; [reflexivity |]. simpl.
    by rewrite <- app_assoc.
Qed.
(** Without pagination and without a skip, a zero limit sends the store
    nothing, whether or not the builder accepts the query. *)
Lemma find_zero_limit_untouched (self : Adapter) (params : Params)
    (q : AdapterQuery) (w : World) :
  p_query params = Some q → q_limit q = Some 0 →
  max_allows_zero (paginate (getOptions self params)) →
  paginationDisabled self params = true → default 0 (q_skip q) = 0 →
  (_find raises matching self params w).2 = w.
Proof.
  intros Hq Hlimit Hmax Hdisabled Hskip.
  unfold _find, handled, try_catch, filterQuery.
  rewrite Hq. simpl. rewrite Hlimit, getLimit_zero by done.
  rewrite bind_run. unfold lift.
  destruct (find_search raises self params); [| done].
  by rewrite Hdisabled, Hskip.
Qed.
End Find.

Lemma find_zero_limit_witness :
  p_query (limited 0 None PaginateUndefined) = Some (mkQuery None None (Some 0) None [])
  ∧ faults three_people = []
  ∧ _find accept scan (people None) (limited 0 None PaginateUndefined) three_people
    = (Ok (Items []), three_people).
Proof.
  split; [reflexivity |]. split; [reflexivity |].
  exact (find_zero_limit accept scan (people None) (limited 0 None PaginateUndefined)
           (mkQuery None None (Some 0) None []) [] three_people
           eq_refl eq_refl I eq_refl eq_refl eq_refl).
Defined.

(** C5, as the claim has it, fails with pagination: the envelope has no
    data, but the store was asked for the page and for the count. *)
Lemma paginated_zero_limit_queries_the_store :
  ¬ zero_limit_is_silent accept scan paged_people
      (limited 0 None PaginateUndefined) three_people.
Proof.
  intros (r & w' & Hrun & _ & Hlog).
  vm_compute in Hrun. injection Hrun as <- <-. discriminate.
Qed.

(** Without pagination a zero limit with a skip takes the branch of a
    skip without limit: the store is asked for the count and for the
    records from the skip on, and they are returned. *)
Example zero_limit_with_skip :
  ∃ results w',
    _find accept scan (people None) (limited 0 (Some 1) PaginateUndefined) three_people
    = (Ok (Items results), w')
    ∧ length results = 2%nat
    ∧ log w' = [Count []; ReturnPage [] 1 3].
Proof.
  eexists _, _. split; [vm_compute; reflexivity |]. by split.
Qed.

(** ** Patch *)

Section Patch.
Variable raises : call → option error.
Variable matching : list call → gmap string (gmap string value) → list Entity.

(** Without a filter and without a field selection, on a store that does
    not fail, a patch lays the data over the stored record. *)
Lemma patch_merges_without_select self id data params w previous :
  faults w = [] →
  non_empty (filterQuery self params).2 = false →
  f_select (filterQuery self params).1.2 = None →
  store w !! id = Some previous →
  truthy_opt (previous !! opt_id (getOptions self params)) = true →
  store (_patch raises matching self (Some id) data params w).2 !! id
  = Some (data ∪ previous).
Proof.
  intros Hcalm Hquery Hselect Hstored Htruthy.
  unfold _patch, handled, try_catch, _get.
  destruct (filterQuery self params) as [[pg filters] query]. simpl in *.
  rewrite Hquery, Hselect. rewrite bind_run. unfold try_catch.
  unfold repository_fetch. rewrite !bind_run, roundtrip_calm by done.
  simpl. rewrite Hstored. simpl. rewrite Htruthy, andb_false_r. simpl.
  apply lookup_insert_eq.
Qed.
End Patch.

(** C6. A patch with [$select: ['name']] writes back the record as the
    selection left it: the age Doug had is gone from the store. *)
Theorem patch_with_select_drops_fields :
  store with_doug !! "a"
  = Some {[ "uuid" := VStr "a"; "name" := VStr "Doug"; "age" := VNum 32 ]}
  ∧ (∃ entity w',
       _patch accept scan (people None) (Some "a")
         {[ "name" := VStr "PatchDoug" ]} selecting_name with_doug = (Ok entity, w')
       ∧ store w' !! "a" = Some {[ "uuid" := VStr "a"; "name" := VStr "PatchDoug" ]}
       ∧ store w' !! "a" ≫= (.!! "age") = None)
  ∧ ¬ patch_merges_stored accept scan (people None) "a"
        {[ "name" := VStr "PatchDoug" ]} selecting_name with_doug.
Proof.
  split; [vm_compute; reflexivity |]. split.
  - eexists _, _. split; [vm_compute; reflexivity |].
    split; vm_compute; reflexivity.
  - intros Hclaim.
    assert (store with_doug !! "a" = Some (<["uuid" := VStr "a"]> doug)) as Hprevious
      by (vm_compute; reflexivity).
    apply Hclaim in Hprevious. vm_compute in Hprevious. discriminate.
Qed.

(** ** More on the translator *)

(** Induction on a value with the values inside it. *)
Lemma value_nested_ind (P : value → Prop) :
  P VNull → (∀ b, P (VBool b)) → (∀ n, P (VNum n)) → (∀ s, P (VStr s)) →
  (∀ t, P (VDate t)) →
  (∀ items, Forall P items → P (VArr items)) →
  (∀ props, Forall (λ kv, P kv.2) props → P (VObj props)) →
  ∀ v, P v.
Proof.
  intros HNull HBool HNum HStr HDate HArr HObj.
  fix IH 1.
  intros [| b | n | s | t | items | props];
    [exact HNull | apply HBool | apply HNum | apply HStr | apply HDate | |].
  - apply HArr. induction items as [| item items IHitems]; constructor.
    + apply IH.
    + exact IHitems.
  - apply HObj. induction props as [| [k v] props IHprops]; constructor.
    + apply IH.
    + exact IHprops.
Qed.

Lemma handle_appends (r : result (list call)) (search : list call) :
  handle (rbind r (λ calls, Ok (search ++ calls)))
  = rbind (handle r) (λ calls, Ok (search ++ calls)).
Proof. by destruct r. Qed.

Section Appends.
Variable raises : call → option error.

Lemma appends_invoke (c : call) : appends (λ search, invoke raises search c).
Proof.
  intros search. unfold invoke. by destruct (raises c).
Qed.

Lemma appends_Ok : appends (λ search, Ok search).
Proof. intros search. simpl. by rewrite app_nil_r. Qed.

Lemma appends_Err (e : error) : appends (λ _, Err e).
Proof. done. Qed.

(** Two steps that only add calls make one that only adds calls. *)
Lemma appends_then (f g : list call → result (list call)) :
  appends f → appends g → appends (λ search, rbind (f search) g).
Proof.
  intros Hf Hg search. rewrite (Hf search).
  destruct (f []) as [calls | e]; simpl; [| done].
  rewrite (Hg (search ++ calls)), (Hg calls).
  destruct (g []) as [more | e]; simpl; [| done].
  by rewrite app_assoc.
Qed.

Lemma appends_handle (f : list call → result (list call)) :
  appends f → appends (λ search, handle (f search)).
Proof.
  intros Hf search. rewrite (Hf search). apply handle_appends.
Qed.

Lemma appends_dispatch column key v :
  appends (λ search, dispatch raises search column key v).
Proof.
  unfold dispatch. destruct (METHODS key) as [method | |].
  - destruct (String.eqb method ""); [apply appends_invoke |].
    destruct (String.eqb method "not"); apply appends_invoke.
  - intros search. unfold invoke. by destruct (raises _).
  - apply appends_invoke.
Qed.

Lemma appends_sort_each props :
  appends (λ search, sort_each raises search props).
Proof.
  induction props as [| [sortKey d] rest IH]; simpl; [apply appends_Ok |].
  apply (appends_then (λ search, invoke raises search _)); [| done].
  apply appends_invoke.
Qed.

Lemma appends_sort_keys v : appends (λ search, sort_keys raises search v).
Proof.
  destruct v; simpl; try apply appends_Ok; try apply appends_Err.
  apply appends_sort_each.
Qed.

(** The calls of a translation come after the calls that were there. *)
Lemma redisQuery_only_appends (query : list (string * value))
    (parentKey : option string) (search : list call) :
  redisQuery raises search query parentKey
  = rbind (redisQuery raises [] query parentKey)
      (λ calls, Ok (search ++ calls)).
Proof.
  unfold redisQuery. revert parentKey search.
  generalize (VObj query) as v. clear query.
  induction v as [| | | | | items _ | props IH] using value_nested_ind;
    intros parentKey search; try (simpl; by rewrite app_nil_r).
  simpl. revert search.
  match goal with
  | |- ∀ search, handle (?each props search) = _ =>
      change (appends (λ search, handle (each props search)));
      apply appends_handle; set (each_key := each)
  end.
  induction IH as [| [key val] rest IHval _ IHrest]; [apply appends_Ok |].
  simpl in IHval.
  change (appends (λ search,
    rbind
      (if decide (key = "$or") then
         match val with
         | VArr items =>
             (fix each_item (its : list value) (search : list call)
                {struct its} : result (list call) :=
                match its with
                | [] => Ok search
                | item :: its' =>
                    rbind (redisQuery_val raises item None [])
                      (λ sub, rbind (invoke raises search (OrSub sub))
                         (λ search', each_item its' search'))
                end) items search
         | _ => Err (OtherError "TypeError" "value.forEach is not a function")
         end
       else if decide (key = "$and") then
         match val with
         | VArr items =>
             rbind
               ((fix each_item (its : list value) (sub : list call)
                   {struct its} : result (list call) :=
                   match its with
                   | [] => Ok sub
                   | item :: its' =>
                       rbind (redisQuery_val raises item None sub)
                         (λ sub', each_item its' sub')
                   end) items [])
               (λ sub, invoke raises search (AndSub sub))
         | _ => Err (OtherError "TypeError" "value.forEach is not a function")
         end
       else if decide (key = "$sort") then sort_keys raises search val
       else
         match val with
         | VObj _ => redisQuery_val raises val (Some key) search
         | _ => dispatch raises search (default key parentKey) key val
         end)
      (λ search', each_key rest search'))).
  apply appends_then; [| exact IHrest].
  repeat case_decide.
  - destruct val as [| | | | | items |]; try apply appends_Err.
    clear IHval. induction items as [| item items IHitems]; [apply appends_Ok |].
    intros search. destruct (redisQuery_val raises item None []) as [sub | e];
      simpl; [| done].
    apply (appends_then (λ search, invoke raises search (OrSub sub)));
      [apply appends_invoke | exact IHitems].
  - destruct val as [| | | | | items |]; try apply appends_Err.
    intros search.
    match goal with |- rbind ?r _ = _ => destruct r as [sub | e] end;
      simpl; [| done].
    apply appends_invoke.
  - apply appends_sort_keys.
  - destruct val; try apply appends_dispatch.
    intros search. apply IHval.
Qed.

(** X1. [redisQuery] only adds calls to the search it is given: the calls
    that were there stay, in their order, and the calls added are those
    the same query adds to an empty search. *)
Theorem redisQuery_appends (query : list (string * value))
    (parentKey : option string) (search : list call) :
  redisQuery raises search query parentKey
  = rbind (redisQuery raises [] query parentKey)
      (λ calls, Ok (search ++ calls)).
Proof. exact (redisQuery_only_appends query parentKey search). Qed.
End Appends.

Section Combinators.
Variable raises : call → option error.

Lemma translations_cons q rest subs :
  translations raises (q :: rest) = Ok subs →
  ∃ sub subs', redisQuery raises [] q None = Ok sub
               ∧ translations raises rest = Ok subs' ∧ subs = sub :: subs'.
Proof.
  simpl. destruct (redisQuery raises [] q None) as [sub | e]; simpl; [| done].
  destruct (translations raises rest) as [subs' | e]; simpl; [| done].
  intros [= <-]. by exists sub, subs'.
Qed.

(** X2. The combinators. When every item of the list translates, and the
    builder accepts the sub-searches, [$or] adds one [or] call per item,
    in the order of the items, and [$and] adds a single [and] call whose
    sub-search collects the calls of all the items. *)
Theorem combinators_translate (search : list call)
    (queries : list (list (string * value))) (subs : list (list call)) :
  translations raises queries = Ok subs →
  ((∀ sub, sub ∈ subs → raises (OrSub sub) = None) →
   redisQuery raises search [("$or", VArr (VObj <$> queries))] None
   = Ok (search ++ (OrSub <$> subs)))
  ∧ (raises (AndSub (concat subs)) = None →
     redisQuery raises search [("$and", VArr (VObj <$> queries))] None
     = Ok (search ++ [AndSub (concat subs)])).
Proof.
  intros Hsubs. split.
  - intros Haccepted. unfold redisQuery. simpl. rewrite rbind_Ok_r.
    match goal with
    | |- handle (?each _ search) = _ =>
        enough (∀ s, each (VObj <$> queries) s = Ok (s ++ (OrSub <$> subs)))
          as -> by done
    end.
    revert subs Hsubs Haccepted.
    induction queries as [| q rest IH]; intros subs Hsubs Haccepted s.
    + injection Hsubs as <-. simpl. by rewrite app_nil_r.
    + apply translations_cons in Hsubs as (sub & subs' & Hq & Hrest & ->).
      unfold redisQuery in Hq. simpl in *. rewrite Hq. simpl.
      unfold invoke. rewrite Haccepted by set_solver. simpl.
      rewrite (IH subs') by (done || set_solver).
      by rewrite <- app_assoc.
  - intros Haccepted. unfold redisQuery. simpl. rewrite rbind_Ok_r.
    match goal with
    | |- handle (rbind (?each _ []) _) = _ =>
        enough (∀ acc, each (VObj <$> queries) acc = Ok (acc ++ concat subs))
          as -> by (simpl; unfold invoke; by rewrite Haccepted)
    end.
    clear Haccepted. revert subs Hsubs.
    induction queries as [| q rest IH]; intros subs Hsubs acc.
    + injection Hsubs as <-. simpl. by rewrite app_nil_r.
    + apply translations_cons in Hsubs as (sub & subs' & Hq & Hrest & ->).
      pose proof (redisQuery_only_appends raises q None acc) as Happ.
      rewrite Hq in Happ. unfold redisQuery in Happ. simpl in *.
      rewrite Happ. simpl. rewrite (IH subs') by done.
      by rewrite <- app_assoc.
Qed.

(** A field scope inside a field scope. *)
Lemma redisQuery_scope_in search field props parentKey :
  field ∉ reserved →
  redisQuery raises search [(field, VObj props)] parentKey
  = handle (redisQuery raises search props (Some field)).
Proof.
  intros Hkey. unfold redisQuery. simpl.
  repeat (case_decide; [subst; exfalso; apply Hkey; keys |]).
  by rewrite rbind_Ok_r.
Qed.

(** X3. Field scopes do not add up: under [{ outer: { inner: { op: v } } }]
    the operator is applied to the column [inner], the innermost field;
    the outer field leaves no trace in the search. *)
Theorem nested_scope_keeps_innermost_field (search : list call)
    (outer inner op : string) (v : value) :
  outer ∉ reserved → inner ∉ reserved → op ∉ reserved → is_object v = false →
  redisQuery raises search [(outer, VObj [(inner, VObj [(op, v)])])] None
  = handle (dispatch raises search inner op v).
Proof.
  intros Houter Hinner Hop Hv.
  rewrite redisQuery_scope_in, redisQuery_scope_in, redisQuery_leaf by done.
  by rewrite !handle_idem.
Qed.

Lemma sort_each_accepted search props :
  (∀ c, c ∈ sort_calls props → raises c = None) →
  sort_each raises search props = Ok (search ++ sort_calls props).
Proof.
  revert search. induction props as [| [sortKey d] rest IH]; intros search Hacc.
  - simpl. by rewrite app_nil_r.
  - simpl. unfold invoke. rewrite Hacc by (unfold sort_calls; set_solver).
    simpl. rewrite IH by (intros c Hc; apply Hacc; unfold sort_calls in *; set_solver).
    by rewrite <- app_assoc.
Qed.
End Combinators.

Section FindSearch.
Variable raises : call → option error.

(** X4. The search of a find call: the clauses of the filter first, then
    one [sortBy] per key of [$sort], in the order of the keys, ascending
    for the value [1] and descending for every other value. *)
Theorem find_search_sorts_last (self : Adapter) (params : Params)
    (q : AdapterQuery) (props : list (string * value)) (clauses : list call) :
  p_query params = Some q →
  q_sort q = Some (VObj props) →
  redisQuery raises [] (q_rest q) None = Ok clauses →
  (∀ c, c ∈ sort_calls props → raises c = None) →
  find_search raises self params = Ok (clauses ++ sort_calls props).
Proof.
  intros Hq Hsort Hclauses Haccepted.
  unfold find_search, filterQuery. rewrite Hq. cbn -[redisQuery]. rewrite Hsort.
  destruct (q_rest q) as [| entry rest]; cbn -[redisQuery].
  - compute in Hclauses. injection Hclauses as <-.
    by apply sort_each_accepted.
  - rewrite Hclauses. cbn -[redisQuery]. by apply sort_each_accepted.
Qed.
End FindSearch.

Lemma combinators_translate_witness :
  translations accept [[("name", VStr "Alice")]; [("age", VObj [("$lt", VNum 30)])]]
  = Ok [[WhereEquals "name" (VStr "Alice")]; [WhereMethod "age" "lt" (VNum 30)]]
  ∧ redisQuery accept []
      [("$and", VArr [VObj [("name", VStr "Alice")];
                      VObj [("age", VObj [("$lt", VNum 30)])]])] None
    = Ok [AndSub [WhereEquals "name" (VStr "Alice"); WhereMethod "age" "lt" (VNum 30)]].
Proof.
  split; [reflexivity |].
  apply (combinators_translate accept []
           [[("name", VStr "Alice")]; [("age", VObj [("$lt", VNum 30)])]]
           [[WhereEquals "name" (VStr "Alice")]; [WhereMethod "age" "lt" (VNum 30)]]
           eq_refl).
  reflexivity.
Defined.

Lemma nested_scope_keeps_innermost_field_witness :
  ("address" ∉ reserved) ∧ ("zip" ∉ reserved) ∧ ("$gt" ∉ reserved)
  ∧ redisQuery accept [] [("address", VObj [("zip", VObj [("$gt", VNum 7)])])] None
    = handle (dispatch accept [] "zip" "$gt" (VNum 7)).
Proof.
  split; [keys |]. split; [keys |]. split; [keys |].
  apply (nested_scope_keeps_innermost_field accept [] "address" "zip" "$gt" (VNum 7));
    [keys | keys | keys | reflexivity].
Defined.

Lemma find_search_sorts_last_witness :
  find_search accept (people None)
    (mkParams (Some (mkQuery None (Some (VObj [("name", VNum 1); ("age", VNum (-1))]))
                       None None [("team", VStr "blue")])) PaginateUndefined false)
  = Ok ([WhereEquals "team" (VStr "blue")] ++ [SortBy "name" ASC; SortBy "age" DESC]).
Proof.
  apply (find_search_sorts_last accept (people None)
           (mkParams (Some (mkQuery None (Some (VObj [("name", VNum 1); ("age", VNum (-1))]))
                              None None [("team", VStr "blue")])) PaginateUndefined false)
           (mkQuery None (Some (VObj [("name", VNum 1); ("age", VNum (-1))]))
              None None [("team", VStr "blue")])
           [("name", VNum 1); ("age", VNum (-1))] [WhereEquals "team" (VStr "blue")]
           eq_refl eq_refl eq_refl).
  reflexivity.
Defined.

(** ** The field selection *)

Lemma keep_selected_fields (selected : list string) (idField : string)
    (entity : Entity) (key : string) :
  fields (keep_selected selected idField entity) !! key
  = (if decide (key ∈ selected ∨ key = idField) then fields entity !! key else None).
Proof.
  simpl. destruct (fields entity !! key) as [v |] eqn:E.
  - case_decide.
    + by apply map_lookup_filter_Some.
    + apply map_lookup_filter_None. right. intros v' _. done.
  - rewrite (proj2 (map_lookup_filter_None _ _ _)) by (by left).
    by case_decide.
Qed.

(** X5. The field selection keeps a field exactly when it is selected or
    is the identity field, with the value it had; selecting twice is
    selecting once. *)
Theorem keep_selected_lookup (selected : list string) (idField : string)
    (entity : Entity) (key : string) :
  fields (keep_selected selected idField entity) !! key
  = (if decide (key ∈ selected ∨ key = idField) then fields entity !! key else None)
  ∧ keep_selected selected idField (keep_selected selected idField entity)
    = keep_selected selected idField entity.
Proof.
  split; [apply keep_selected_fields |].
  unfold keep_selected. simpl. f_equal. apply map_eq. intros k.
  pose proof (keep_selected_fields selected idField
                (keep_selected selected idField entity) k) as Htwice.
  pose proof (keep_selected_fields selected idField entity k) as Honce.
  simpl in *. rewrite Htwice. by case_decide; [| rewrite Honce].
Qed.

(** ** Lookups on a store that answers *)

Section Calm.
Variable raises : call → option error.
Variable matching : list call → gmap string (gmap string value) → list Entity.

Lemma fetch_calm key w :
  faults w = [] →
  repository_fetch key w
  = (Ok (mkEntity key (default ∅ (store w !! key))), after w [Fetch key] (store w)).
Proof.
  intros H. unfold repository_fetch. by rewrite bind_run, roundtrip_calm.
Qed.

(** A lookup by key alone: the record under the key, selected, when it
    passes the identity check, and [NotFound] when it does not. *)
Lemma get_by_key_calm self id params w :
  faults w = [] → filter_of self params = [] →
  _get raises matching self id params w
  = (if identity_check (opt_id (options self)) (default ∅ (store w !! id))
     then Ok (select_fields (selection self params) (opt_id (options self))
                (mkEntity id (default ∅ (store w !! id))))
     else Err (not_found id),
     after w [Fetch id] (store w)).
Proof.
  intros Hcalm Hfilter. unfold filter_of, selection in *.
  unfold _get, try_catch.
  destruct (filterQuery self params) as [[pg filters] query]. simpl in *.
  subst query. simpl. rewrite bind_run, fetch_calm by done. simpl.
  unfold identity_check.
  destruct (String.eqb (opt_id (options self)) ""); simpl; [done |].
  by destruct (truthy_opt _).
Qed.
End Calm.

(** ** What the store keeps *)

Section Keeps.
Context [A B : Type].

Lemma keeps_ret (a : A) : keeps_store (mret a).
Proof. done. Qed.

Lemma keeps_throw (e : error) : keeps_store (mthrow e : M A).
Proof. done. Qed.

Lemma keeps_lift (r : result A) : keeps_store (lift r).
Proof. done. Qed.

Lemma keeps_bind (m : M A) (k : A → M B) :
  keeps_store m → (∀ a, keeps_store (k a)) → keeps_store (m ≫= k).
Proof.
  intros Hm Hk w. rewrite bind_run. specialize (Hm w).
  destruct (m w) as [[a | e] w1]; simpl in *; [| done].
  by rewrite Hk.
Qed.

Lemma keeps_try_catch (m : M A) (h : error → M A) :
  keeps_store m → (∀ e, keeps_store (h e)) → keeps_store (try_catch m h).
Proof.
  intros Hm Hh w. unfold try_catch. specialize (Hm w).
  destruct (m w) as [[a | e] w1]; simpl in *; [done |].
  by rewrite Hh.
Qed.

Lemma keeps_handled (m : M A) : keeps_store m → keeps_store (handled m).
Proof. intros Hm. by apply keeps_try_catch. Qed.

(** A computation that keeps the store fails clean, and so does one that
    fails clean after a computation that keeps the store. *)
Lemma keeps_fails_clean (m : M A) : keeps_store m → fails_clean m.
Proof. intros Hm w e w' Hrun. specialize (Hm w). by rewrite Hrun in Hm. Qed.

Lemma fails_clean_bind (m : M A) (k : A → M B) :
  keeps_store m → (∀ a, fails_clean (k a)) → fails_clean (m ≫= k).
Proof.
  intros Hm Hk w e w'. rewrite bind_run. specialize (Hm w).
  destruct (m w) as [[a | e1] w1]; simpl in *.
  - intros Hrun. rewrite <- Hm. by eapply Hk.
  - by intros [= _ <-].
Qed.

Lemma fails_clean_handled (m : M A) : fails_clean m → fails_clean (handled m).
Proof.
  intros Hm w e w'. unfold handled, try_catch.
  destruct (m w) as [[a | e1] w1] eqn:Hrun; [done |].
  intros [= _ <-]. by eapply Hm.
Qed.

Lemma fails_normalized_handled (m : M A) : fails_normalized (handled m).
Proof.
  intros w e w'. unfold handled, try_catch.
  destruct (m w) as [[a | e1] w1]; [done |].
  intros [= <- _]. destruct e1 as [| | | | name message |]; simpl; try done.
  unfold errorHandler. by destruct (String.eqb name "") eqn:E; [apply String.eqb_eq |].
Qed.
End Keeps.

Lemma keeps_roundtrip (c : command) : keeps_store (roundtrip c).
Proof. intros w. unfold roundtrip. by destruct (faults w) as [| [e |] rest]. Qed.

Lemma keeps_read_store : keeps_store read_store.
Proof. done. Qed.

(** Splits a computation that keeps the store along its structure. *)
Ltac keeps_step :=
  lazymatch goal with
  | |- keeps_store (mbind _ _) => apply keeps_bind; [| intros ?]
  | |- keeps_store (try_catch _ _) => apply keeps_try_catch; [| intros ?]
  | |- keeps_store (handled _) => apply keeps_handled
  | |- keeps_store (roundtrip _) => apply keeps_roundtrip
  | |- keeps_store read_store => apply keeps_read_store
  | |- keeps_store (lift _) => apply keeps_lift
  | |- keeps_store (mret _) => apply keeps_ret
  | |- keeps_store (mthrow _) => apply keeps_throw
  | |- keeps_store (if ?b then _ else _) => destruct b
  | |- keeps_store (match ?x with _ => _ end) => destruct x
  end.

(** A save, a removal: the store changes only when the round trip went
    through, and then the computation goes on to its result. *)
Lemma fails_clean_save [A : Type] key data (f : Entity → A) :
  fails_clean (repository_save key data ≫= λ entity, mret (f entity)).
Proof.
  intros w e w'. unfold repository_save. rewrite !bind_run.
  pose proof (keeps_roundtrip (Save key data) w) as Hkeep.
  destruct (roundtrip (Save key data) w) as [[[] | e1] w1]; simpl in *; [done |].
  by intros [= _ <-].
Qed.

Lemma fails_clean_remove [A : Type] key (a : A) :
  fails_clean (repository_remove key;; mret a).
Proof.
  intros w e w'. unfold repository_remove. rewrite !bind_run.
  pose proof (keeps_roundtrip (Remove key) w) as Hkeep.
  destruct (roundtrip (Remove key) w) as [[[] | e1] w1]; simpl in *; [done |].
  by intros [= _ <-].
Qed.

Section Untouched.
Variable raises : call → option error.
Variable matching : list call → gmap string (gmap string value) → list Entity.

(** Neither lookup changes a record. *)
Lemma lookups_keep (self : Adapter) (id : string) (params : Params) :
  keeps_store (_get raises matching self id params)
  ∧ keeps_store (_find raises matching self params).
Proof.
  split.
  - unfold _get, repository_fetch, search_return_all. repeat keeps_step.
  - unfold _find, search_page, search_count, search_return_all.
    repeat keeps_step.
Qed.

(** X6. The lookups never write: whatever the parameters, the builder and
    the failures of the store, [_get] and [_find] leave every record of
    the store as it was. *)
Theorem lookups_keep_the_store (self : Adapter) (id : string) (params : Params) :
  keeps_store (_get raises matching self id params)
  ∧ keeps_store (_find raises matching self params).
Proof. exact (lookups_keep self id params). Qed.

(** X7. A mutation that fails has written nothing: when [_patch],
    [_update] or [_remove] ends in an error, whatever the error, the
    records of the store are those of before the call. *)
Theorem failed_mutation_writes_nothing (self : Adapter) (id : option string)
    (data : gmap string value) (params : Params) :
  fails_clean (_patch raises matching self id data params)
  ∧ fails_clean (_update raises matching self id data params)
  ∧ fails_clean (_remove raises matching self id params).
Proof.
  split; [| split].
  - unfold _patch. apply fails_clean_handled.
    destruct id as [id |]; [| by apply keeps_fails_clean].
    apply fails_clean_bind; [apply lookups_keep |].
    intros entity. apply (fails_clean_save _ _ (λ _, assign entity data)).
  - unfold _update. apply fails_clean_handled.
    destruct id as [id |]; [| by apply keeps_fails_clean].
    destruct (filterQuery self params) as [[pg filters] query].
    apply fails_clean_bind.
    + unfold repository_fetch, search_return_all. repeat keeps_step.
    + intros _. apply (fails_clean_save _ _ (λ entity, select_fields _ _ entity)).
  - unfold _remove. apply fails_clean_handled.
    destruct id as [id |]; [| by apply keeps_fails_clean].
    apply fails_clean_bind; [apply lookups_keep |].
    intros entity. apply fails_clean_remove.
Qed.

Lemma rethrow_surfaced (e : error) : rethrow e = surfaced e.
Proof.
  destruct e as [| | | | name message |]; try done. simpl. unfold errorHandler.
  destruct (String.eqb_spec name ""); case_decide; try done.
  destruct (String.eqb_spec message ""); by case_decide.
Qed.

(** A store that fails the first round trip of a create or of an update
    by key: the method fails with that error, as its handler leaves it. *)
Lemma first_failure_surfaces (uuid : nat → string) (self : Adapter)
    (key : string) (data item : gmap string value)
    (items : list (gmap string value)) (params : Params)
    (w : World) (e : error) (rest : list (option error)) :
  faults w = Some e :: rest →
  (_create uuid self (One item) params w).1 = Err (surfaced e)
  ∧ (_create uuid self (Many (item :: items)) params w).1 = Err (surfaced e)
  ∧ (filter_of self params = [] →
     (_update raises matching self (Some key) data params w).1 = Err (surfaced e)).
Proof.
  intros Hfaults. rewrite <- rethrow_surfaced. split; [| split].
  - unfold _create, handled, try_catch.
    destruct (filterQuery self params) as [[pg filters] query]. simpl.
    rewrite bind_run. unfold randomUUID at 1.
    rewrite bind_run. unfold repository_save.
    by rewrite !bind_run, (roundtrip_next _ _ (Some e) rest).
  - unfold _create, handled, try_catch.
    destruct (filterQuery self params) as [[pg filters] query].
    rewrite bind_run. simpl.
    rewrite bind_run. unfold randomUUID at 1. unfold repository_save at 1.
    rewrite !bind_run, (roundtrip_next _ _ (Some e) rest) by done. simpl.
    by destruct (promise_all _ items _) as [[] ?].
  - unfold filter_of. intros Hfilter. unfold _update, handled, try_catch.
    destruct (filterQuery self params) as [[pg filters] query]. simpl in *.
    subst query. simpl. unfold repository_fetch.
    by rewrite !bind_run, (roundtrip_next _ _ (Some e) rest).
Qed.

(** X8. What the adapter methods let out. No error of redis-om that has
    a name leaves [_find], [_create], [_patch], [_update], [_remove] or
    [redisQuery] as itself. When the store fails the first round trip of
    a create or of an update by key, or the builder throws on the clause
    of a field, the error the caller gets is a [GeneralError] with the
    message of the error, and not its name, when it was an error of
    redis-om with a name; any other error comes out unchanged. *)
Theorem failures_are_normalized (uuid : nat → string) (self : Adapter)
    (id : option string) (data : gmap string value)
    (items : one_or_many (gmap string value)) (params : Params) :
  fails_normalized (_find raises matching self params)
  ∧ fails_normalized (_create uuid self items params)
  ∧ fails_normalized (_patch raises matching self id data params)
  ∧ fails_normalized (_update raises matching self id data params)
  ∧ fails_normalized (_remove raises matching self id params)
  ∧ (∀ search query parentKey e,
       redisQuery raises search query parentKey = Err e → normalized e)
  ∧ (∀ w e rest key item others, faults w = Some e :: rest →
       (_create uuid self (One item) params w).1 = Err (surfaced e)
       ∧ (_create uuid self (Many (item :: others)) params w).1 = Err (surfaced e)
       ∧ (filter_of self params = [] →
          (_update raises matching self (Some key) data params w).1
          = Err (surfaced e)))
  ∧ (∀ search field v e, field ∉ reserved → is_object v = false →
       METHODS field = Undefined → raises (WhereEquals field v) = Some e →
       redisQuery raises search [(field, v)] None = Err (surfaced e)).
Proof.
  repeat (split; [apply fails_normalized_handled |]). split; [| split].
  - intros search query parentKey e. unfold redisQuery. simpl.
    match goal with |- handle ?r = _ → _ => destruct r as [calls | e1] end;
      [done |].
    intros [= <-]. destruct e1 as [| | | | name message |]; simpl; try done.
    unfold errorHandler. by destruct (String.eqb name "") eqn:E; [apply String.eqb_eq |].
  - intros w e rest key item others Hfaults.
    by apply first_failure_surfaces with (rest := rest).
  - intros search field v e Hfield Hv Hnone Hraises.
    rewrite redisQuery_leaf by done. unfold dispatch. simpl. rewrite Hnone.
    unfold invoke. rewrite Hraises. simpl. by rewrite rethrow_surfaced.
Qed.
End Untouched.

(** ** Mutations on a store that answers *)

Section Mutations.
Variable raises : call → option error.
Variable matching : list call → gmap string (gmap string value) → list Entity.

Lemma after_after w cmds s cmds' s' :
  after (after w cmds s) cmds' s' = after w (cmds ++ cmds') s'.
Proof. unfold after. simpl. by rewrite app_assoc. Qed.

(** An update by key of a record that is there. *)
Lemma update_calm (self : Adapter) (id : string) (data : gmap string value)
    (params : Params) (w : World) :
  faults w = [] → filter_of self params = [] →
  identity_check (opt_id (options self)) (default ∅ (store w !! id)) = true →
  _update raises matching self (Some id) data params w
  = (Ok (select_fields (selection self params) (opt_id (options self))
           (mkEntity id data)),
     after w [Fetch id; Save id data] (<[id := data]> (store w))).
Proof.
  intros Hcalm Hfilter Hcheck. unfold filter_of, selection, identity_check in *.
  unfold _update, handled, try_catch.
  destruct (filterQuery self params) as [[pg filters] query]. simpl in *.
  subst query. simpl. rewrite !bind_run, fetch_calm by done. simpl.
  rewrite <- negb_orb, Hcheck. simpl.
  unfold after. by rewrite <- app_assoc.
Qed.

(** X9. Update replaces. For a record that is there, an update by key
    stores the data in full under the key: no field of the record that
    was there survives unless the data has it. It returns the data,
    selected, after one fetch and one save. *)
Theorem update_replaces (self : Adapter) (id : string) (data : gmap string value)
    (params : Params) (w : World) :
  faults w = [] → filter_of self params = [] →
  identity_check (opt_id (options self)) (default ∅ (store w !! id)) = true →
  _update raises matching self (Some id) data params w
  = (Ok (select_fields (selection self params) (opt_id (options self))
           (mkEntity id data)),
     after w [Fetch id; Save id data] (<[id := data]> (store w))).
Proof. exact (update_calm self id data params w). Qed.

(** X10. A record that is not there, or whose identity field is falsy: an
    update by key fails with [NotFound] after the fetch, and nothing is
    saved. *)
Theorem update_of_missing_record (self : Adapter) (id : string)
    (data : gmap string value) (params : Params) (w : World) :
  faults w = [] → filter_of self params = [] →
  identity_check (opt_id (options self)) (default ∅ (store w !! id)) = false →
  _update raises matching self (Some id) data params w
  = (Err (not_found id), after w [Fetch id] (store w)).
Proof.
  intros Hcalm Hfilter Hcheck. unfold filter_of, identity_check in *.
  unfold _update, handled, try_catch.
  destruct (filterQuery self params) as [[pg filters] query]. simpl in *.
  subst query. simpl. rewrite !bind_run, fetch_calm by done. simpl.
  by rewrite <- negb_orb, Hcheck.
Qed.

(** X11. Update and the identity field. The data of an update is stored
    as it is: when it carries no truthy identity field, the update
    succeeds, the record stays in the store under its key, and the next
    lookup of that key fails with [NotFound]; when it carries one, the
    lookup returns the data. *)
Theorem update_then_get (self : Adapter) (id : string) (data : gmap string value)
    (params lookup : Params) (w : World) :
  faults w = [] → filter_of self params = [] → filter_of self lookup = [] →
  identity_check (opt_id (options self)) (default ∅ (store w !! id)) = true →
  let w' := (_update raises matching self (Some id) data params w).2 in
  store w' !! id = Some data
  ∧ (_get raises matching self id lookup w').1
    = (if identity_check (opt_id (options self)) data
       then Ok (select_fields (selection self lookup) (opt_id (options self))
                  (mkEntity id data))
       else Err (not_found id)).
Proof.
  intros Hcalm Hfilter Hlookup Hcheck w'. subst w'.
  rewrite update_calm by done. simpl.
  split; [apply lookup_insert_eq |].
  rewrite get_by_key_calm by done. simpl. by rewrite lookup_insert_eq.
Qed.

(** X12. Remove. For a record that is there, a removal by key returns the
    record as it was, selected, deletes it and no other record, and the
    next lookup of the key fails with [NotFound]. *)
Theorem remove_returns_then_deletes (self : Adapter) (id : string)
    (params lookup : Params) (w : World) (previous : gmap string value) :
  faults w = [] → filter_of self params = [] → filter_of self lookup = [] →
  store w !! id = Some previous →
  opt_id (options self) ≠ "" →
  truthy_opt (previous !! opt_id (options self)) = true →
  let w' := after w [Fetch id; Remove id] (delete id (store w)) in
  _remove raises matching self (Some id) params w
  = (Ok (select_fields (selection self params) (opt_id (options self))
           (mkEntity id previous)), w')
  ∧ (∀ other, other ≠ id → store w' !! other = store w !! other)
  ∧ (_get raises matching self id lookup w').1 = Err (not_found id).
Proof.
  intros Hcalm Hfilter Hlookup Hstored Hid Htruthy w'. subst w'.
  apply String.eqb_neq in Hid.
  split; [| split].
  - unfold _remove, handled, try_catch.
    rewrite bind_run, get_by_key_calm by done.
    unfold identity_check. rewrite Hstored. simpl. rewrite Htruthy, orb_true_r.
    unfold repository_remove. rewrite !bind_run, roundtrip_calm by done. simpl.
    unfold after. simpl. by rewrite <- app_assoc.
  - intros other Hother. simpl. by rewrite lookup_delete_ne.
  - rewrite get_by_key_calm by done. simpl.
    unfold identity_check. by rewrite lookup_delete_eq, Hid.
Qed.

(** X13. Patch. For a record that is there, a patch by key returns the
    record that the lookup returned with the data assigned over it, and
    stores exactly the record it returns, under the key of the call
    whatever the data says of the identity field. *)
Theorem patch_stores_what_it_returns (self : Adapter) (id : string)
    (data : gmap string value) (params : Params) (w : World)
    (previous : gmap string value) :
  faults w = [] → filter_of self params = [] →
  store w !! id = Some previous →
  identity_check (opt_id (options self)) previous = true →
  let found := select_fields (selection self params) (opt_id (options self))
                 (mkEntity id previous) in
  _patch raises matching self (Some id) data params w
  = (Ok (mkEntity id (data ∪ fields found)),
     after w [Fetch id; Save id (data ∪ fields found)]
       (<[id := data ∪ fields found]> (store w))).
Proof.
  intros Hcalm Hfilter Hstored Hcheck found. subst found.
  unfold _patch, handled, try_catch.
  rewrite bind_run, get_by_key_calm by done.
  rewrite Hstored. simpl. rewrite Hcheck.
  unfold repository_save_entity, assign. rewrite select_fields_eid. simpl.
  unfold after. simpl. by rewrite <- app_assoc.
Qed.

(** X14. A patch or a removal of a record that is not there fails with
    [NotFound] for the key, after the fetch alone. *)
Theorem patch_remove_of_missing_record (self : Adapter) (id : string)
    (data : gmap string value) (params : Params) (w : World) :
  faults w = [] → filter_of self params = [] →
  identity_check (opt_id (options self)) (default ∅ (store w !! id)) = false →
  _patch raises matching self (Some id) data params w
  = (Err (not_found id), after w [Fetch id] (store w))
  ∧ _remove raises matching self (Some id) params w
    = (Err (not_found id), after w [Fetch id] (store w)).
Proof.
  intros Hcalm Hfilter Hcheck.
  split; unfold _patch, _remove, handled, try_catch;
    by rewrite bind_run, get_by_key_calm, Hcheck.
Qed.
End Mutations.

(** ** Find on a store that answers *)

Section FindCalm.
Variable raises : call → option error.
Variable matching : list call → gmap string (gmap string value) → list Entity.

(** X15. [_find] reads [$sort] off [params.query]: called without a
    query it throws a [TypeError] before anything is sent to the store. *)
Theorem find_without_query (self : Adapter) (params : Params) (w : World) :
  p_query params = None →
  _find raises matching self params w
  = (Err (OtherError "TypeError" "Cannot read properties of undefined"), w).
Proof.
  intros Hq. unfold _find, handled, try_catch, find_search, filterQuery.
  by rewrite Hq.
Qed.

Lemma select_each selection idField (results : list Entity) :
  match selection with
  | Some sel => keep_selected sel idField <$> results
  | None => results
  end = select_fields selection idField <$> results.
Proof. destruct selection; simpl; [done |]. by rewrite list_fmap_id. Qed.

(** X16. Find without pagination, with a skip that is not negative and a
    limit that is absent or positive: the result is the list of the
    matches from the skip on, cut at the limit when there is one, each
    with the field selection applied; the store is only read. *)
Theorem find_without_pagination (self : Adapter) (params : Params)
    (search : list call) (w : World) :
  faults w = [] →
  paginationDisabled self params = true →
  find_search raises self params = Ok search →
  let filters := (filterQuery self params).1.2 in
  0 ≤ f_skip filters →
  (f_limit filters = NaN ∨ ∃ n, f_limit filters = Lim n ∧ 0 < n) →
  ∃ w',
    _find raises matching self params w
    = (Ok (Items (select_fields (f_select filters) (opt_id (options self))
                    <$> window (f_limit filters) (f_skip filters)
                          (matching search (store w)))), w')
    ∧ store w' = store w.
Proof.
  intros Hcalm Hdisabled Hsearch filters Hskip Hlimit. subst filters.
  unfold _find, handled, try_catch.
  destruct (filterQuery self params) as [[pg [sel srt l skip]] query]. simpl in *.
  rewrite bind_run. unfold lift. rewrite Hsearch, Hdisabled.
  destruct Hlimit as [-> | (n & -> & Hn)]; simpl.
  - destruct (skip =? 0) eqn:Hzero; simpl.
    + apply Z.eqb_eq in Hzero as ->.
      unfold search_return_all. rewrite !bind_run, roundtrip_calm by done. simpl.
      eexists. split; [by rewrite select_each | reflexivity].
    + unfold search_count, search_page.
      rewrite !bind_run, roundtrip_calm by done. simpl.
      eexists.
      split; [by rewrite select_each, Nat2Z.id, take_ge by (rewrite length_drop; lia) |].
      reflexivity.
  - assert ((n =? 0) = false) as -> by lia. simpl.
    destruct (skip =? 0) eqn:Hzero; simpl.
    + apply Z.eqb_eq in Hzero as ->.
      unfold search_page. rewrite !bind_run, roundtrip_calm by done. simpl.
      eexists. split; [by rewrite select_each | reflexivity].
    + unfold search_page. rewrite !bind_run, roundtrip_calm by done. simpl.
      eexists. split; [by rewrite select_each | reflexivity].
Qed.

(** X17. Find with pagination: the envelope carries the number of all the
    matches as its total, whatever the limit and the skip, echoes the
    limit and the skip, and holds the matches of the page, no more than
    the limit, as the store returned them: the field selection is not
    applied to them. *)
Theorem find_with_pagination (self : Adapter) (params : Params)
    (search : list call) (w : World) :
  faults w = [] →
  paginationDisabled self params = false →
  find_search raises self params = Ok search →
  let filters := (filterQuery self params).1.2 in
  let matches := matching search (store w) in
  let data := take (Z.to_nat (limit_count (f_limit filters)))
                (drop (Z.to_nat (f_skip filters)) matches) in
  _find raises matching self params w
  = (Ok (Paginated (Z.of_nat (length matches)) (f_limit filters)
           (f_skip filters) data),
     after w [ReturnPage search (f_skip filters) (limit_count (f_limit filters));
              Count search] (store w))
  ∧ (length data ≤ Z.to_nat (limit_count (f_limit filters)))%nat
  ∧ data `sublist_of` matches.
Proof.
  intros Hcalm Hpaged Hsearch filters matches data. subst filters matches data.
  split; [| split].
  - unfold _find, handled, try_catch.
    destruct (filterQuery self params) as [[pg [sel srt l skip]] query]. simpl in *.
    rewrite bind_run. unfold lift. rewrite Hsearch, Hpaged.
    unfold search_page, search_count.
    rewrite !bind_run, roundtrip_calm by done. simpl.
    unfold after. by rewrite <- app_assoc.
  - rewrite length_take. lia.
  - etrans; [apply sublist_take | apply sublist_drop].
Qed.
End FindCalm.

(** ** Create on a store that may fail *)

Section CreateMore.
Variable raises : call → option error.
Variable matching : list call → gmap string (gmap string value) → list Entity.
Variable uuid : nat → string.

(** X18. The expiration of a single create. On a store that answers, the
    record is saved under the drawn identifier, and when a default time
    to live is configured one [Expire] follows, for the key read off the
    identity field of the record: the drawn identifier when the payload
    has no identity field, the identity of the payload when it is a
    string. Without a default nothing follows the save. When a default is
    configured and the payload brings an identity that is no string and
    no list, the record is saved and the create then fails with a
    [TypeError]: no [Expire] is sent. *)
Theorem single_create_expiration (self : Adapter) (item : gmap string value)
    (params : Params) (w : World) :
  faults w = [] →
  let idField := opt_id (options self) in
  let key := uuid (drawn w) in
  let record := with_identity idField key item in
  let target := expiry_key idField key item in
  ((configured self = true → keyed idField item) →
   ∃ w',
     _create uuid self (One item) params w
     = (Ok (One (select_fields (selection self params) idField (mkEntity key record))), w')
     ∧ store w' = <[key := record]> (store w)
     ∧ log w' = log w ++ Save key record
                  :: (if configured self
                      then [Expire target (default 0 (expiration self))] else [])
     ∧ (item !! idField = None → target = key)
     ∧ (∀ own, item !! idField = Some (VStr own) → target = own))
  ∧ (∀ v, configured self = true → item !! idField = Some v → no_ids v →
     ∃ w',
       _create uuid self (One item) params w
       = (Err (OtherError "TypeError" "ids.map is not a function"), w')
       ∧ store w' = <[key := record]> (store w)
       ∧ log w' = log w ++ [Save key record]).
Proof.
  intros Hcalm idField key record target. split.
  - intros Hkeyed. eexists. split; [by apply single_create_calm |].
    split; [done |]. split; [done |].
    subst target. unfold expiry_key.
    split; [by intros -> | by intros own ->].
  - intros v Hconfigured Hitem Hv. eexists.
    split; [by eapply single_create_throws |]. done.
Qed.

(** X19. No compensation. When the record of a single create, whose
    payload has no identity or a string for it, was saved and the
    [Expire] that follows fails, the create fails with the error of the
    store, normalized, and the record stays in the store, without a time
    to live. *)
Theorem failed_expiration_leaves_the_record (self : Adapter)
    (item : gmap string value) (params : Params) (w : World) (e : error) :
  faults w = [None; Some e] →
  configured self = true →
  keyed (opt_id (options self)) item →
  let key := uuid (drawn w) in
  let record := with_identity (opt_id (options self)) key item in
  ∃ w',
    _create uuid self (One item) params w = (Err (rethrow e), w')
    ∧ store w' !! key = Some record
    ∧ expirations w' = expirations w
      ++ [(expiry_key (opt_id (options self)) key item, default 0 (expiration self))].
Proof.
  intros Hfaults Hconfigured Hkeyed key record. subst key record.
  unfold configured in Hconfigured.
  unfold _create, handled, try_catch.
  destruct (filterQuery self params) as [[pg filters] query]. simpl.
  rewrite bind_run. unfold randomUUID at 1.
  rewrite bind_run. unfold repository_save.
  rewrite !bind_run, (roundtrip_next _ _ None [Some e]) by done. simpl.
  rewrite Hconfigured.
  erewrite expire_record;
    [| by rewrite select_fields_identity; apply with_identity_keyed].
  unfold roundtrip. simpl.
  eexists. split; [reflexivity |]. simpl. split; [apply lookup_insert_eq |].
  unfold expirations. simpl. rewrite !omap_app. simpl.
  by rewrite app_nil_r.
Qed.

(** X20. No rollback in a list. When the save of the first item of a list
    fails and the store answers the others, the create fails with that
    error, normalized, and every other item of the list is stored all the
    same, each under an identifier of its own. *)
Theorem batch_create_has_no_rollback (self : Adapter)
    (first : gmap string value) (rest : list (gmap string value))
    (params : Params) (w : World) (e : error) :
  faults w = [Some e] →
  let idField := opt_id (options self) in
  let others := created uuid idField (S (drawn w)) rest in
  ∃ w',
    _create uuid self (Many (first :: rest)) params w = (Err (rethrow e), w')
    ∧ store w' = stored others (store w)
    ∧ log w' = log w ++ Save (uuid (drawn w))
                          (with_identity idField (uuid (drawn w)) first)
                 :: saves others
    ∧ length others = length rest.
Proof.
  intros Hfaults idField others. subst idField others.
  unfold _create, handled, try_catch.
  destruct (filterQuery self params) as [[pg filters] query].
  rewrite bind_run. simpl.
  rewrite bind_run. unfold randomUUID at 1. unfold repository_save at 1.
  rewrite !bind_run, (roundtrip_next _ _ (Some e) []) by done. simpl.
  rewrite promise_all_calm by done. simpl.
  eexists. split; [reflexivity |]. simpl. split; [done |].
  split; [by rewrite <- app_assoc |]. apply created_length.
Qed.

(** X21. Create, then get. On a store that answers, a record created
    from a payload without identity field is found by a lookup of the
    identifier it was given: the lookup returns the payload with the
    identity field set to that identifier. *)
Theorem create_then_get (self : Adapter) (item : gmap string value)
    (params lookup : Params) (w : World) :
  faults w = [] → filter_of self lookup = [] →
  item !! opt_id (options self) = None →
  uuid (drawn w) ≠ "" →
  let key := uuid (drawn w) in
  let w' := (_create uuid self (One item) params w).2 in
  faults w' = []
  ∧ (_get raises matching self key lookup w').1
    = Ok (select_fields (selection self lookup) (opt_id (options self))
            (mkEntity key (<[opt_id (options self) := VStr key]> item))).
Proof.
  intros Hcalm Hlookup Hfresh Hkey key w'.
  assert (keyed (opt_id (options self)) item) as Hkeyed
    by (unfold keyed; by rewrite Hfresh).
  subst w'. rewrite single_create_calm by done. simpl. split; [done |].
  rewrite get_by_key_calm by done. simpl.
  fold key. rewrite lookup_insert_eq. simpl.
  unfold identity_check. rewrite with_identity_lookup, Hfresh. simpl.
  apply String.eqb_neq in Hkey. fold key. unfold key at 1. rewrite Hkey.
  rewrite orb_true_r. unfold with_identity.
  by rewrite <- insert_union_singleton_r.
Qed.
End CreateMore.

(** ** The service methods *)

Section ServiceMethods.
Variable raises : call → option error.
Variable matching : list call → gmap string (gmap string value) → list Entity.
Variable sanitizeQuery : Adapter → Params → result AdapterQuery.

(** X22. A query that [sanitizeQuery] rejects ends the service call with
    that error before anything is sent to the store. This holds for
    [get] too: its error is then the error of the validation, not
    [NotFound]. *)
Theorem rejected_query_ends_the_call (self : Adapter) (id : option string)
    (key : string) (data : gmap string value) (params : Params) (w : World)
    (e : error) :
  sanitizeQuery self params = Err e →
  Service.find raises matching sanitizeQuery self params w = (Err e, w)
  ∧ Service.get raises matching sanitizeQuery self key params w = (Err e, w)
  ∧ Service.update raises matching sanitizeQuery self id data params w = (Err e, w)
  ∧ Service.patch raises matching sanitizeQuery self id data params w = (Err e, w)
  ∧ Service.remove raises matching sanitizeQuery self id params w = (Err e, w).
Proof.
  intros Hrejected.
  unfold Service.find, Service.get, Service.update, Service.patch, Service.remove.
  rewrite !bind_run. unfold lift. by rewrite Hrejected.
Qed.

(** The limit of the query plays no part in a lookup. *)
Lemma get_ignores_limit self id params q w :
  _get raises matching self id (Service.with_query params (Service.without_limit q)) w
  = _get raises matching self id (Service.with_query params q) w.
Proof. reflexivity. Qed.

(** X23. The limit that [patch] and [remove] take out of the sanitized
    query changes nothing: the call does what [_patch] and [_remove] do
    with the whole sanitized query, limit included. *)
Theorem stripped_limit_changes_nothing (self : Adapter) (id : option string)
    (data : gmap string value) (params : Params) (q : AdapterQuery) (w : World) :
  sanitizeQuery self params = Ok q →
  Service.patch raises matching sanitizeQuery self id data params w
  = _patch raises matching self id data (Service.with_query params q) w
  ∧ Service.remove raises matching sanitizeQuery self id params w
    = _remove raises matching self id (Service.with_query params q) w.
Proof.
  intros Hq. unfold Service.patch, Service.remove.
  rewrite !bind_run. unfold lift. rewrite Hq.
  split; unfold _patch, _remove; destruct id as [id |]; try done;
    unfold handled, try_catch; by rewrite !bind_run, get_ignores_limit.
Qed.
End ServiceMethods.

(** ** The properties at work *)

Lemma failed_mutation_writes_nothing_witness :
  ∃ e w',
    _patch accept scan (people None) (Some "b") doug empty_params with_doug = (Err e, w')
    ∧ store w' = store with_doug.
Proof.
  eexists _, _. split; [vm_compute; reflexivity |].
  eapply (proj1 (failed_mutation_writes_nothing accept scan (people None)
                   (Some "b") doug empty_params)).
  vm_compute; reflexivity.
Defined.

(** An unknown field, a lost connection, and an error of redis-om
    without message. *)
Lemma failures_are_normalized_witness :
  (_create numbered (people None) (One doug) empty_params
     (failing_first (RedisOmError "FieldNotInSchema" "no such field"))).1
  = Err (GeneralError "no such field")
  ∧ (_create numbered (people None) (One doug) empty_params
       (failing_first timeout)).1 = Err timeout
  ∧ (_update accept scan (people None) (Some "a") doug empty_params
       (failing_first (RedisOmError "SearchError" ""))).1
    = Err (GeneralError "Error").
Proof.
  destruct (failures_are_normalized accept scan numbered (people None) None doug
              (One doug) empty_params) as (_ & _ & _ & _ & _ & _ & Hfirst & _).
  split; [| split].
  - exact (proj1 (Hfirst (failing_first (RedisOmError "FieldNotInSchema" "no such field"))
                    _ [] "a" doug [] eq_refl)).
  - exact (proj1 (Hfirst (failing_first timeout) _ [] "a" doug [] eq_refl)).
  - exact (proj2 (proj2 (Hfirst (failing_first (RedisOmError "SearchError" ""))
                           _ [] "a" doug [] eq_refl)) eq_refl).
Defined.

Lemma update_replaces_witness :
  faults with_doug = [] ∧ filter_of (people None) empty_params = []
  ∧ store (_update accept scan (people None) (Some "a")
             {[ "uuid" := VStr "a"; "name" := VStr "Dougler" ]} empty_params with_doug).2
    !! "a" = Some {[ "uuid" := VStr "a"; "name" := VStr "Dougler" ]}.
Proof.
  split; [reflexivity |]. split; [reflexivity |].
  rewrite (update_replaces accept scan (people None) "a"
             {[ "uuid" := VStr "a"; "name" := VStr "Dougler" ]} empty_params with_doug
             eq_refl eq_refl); [| vm_compute; reflexivity].
  apply lookup_insert_eq.
Defined.

Lemma update_of_missing_record_witness :
  faults with_doug = []
  ∧ _update accept scan (people None) (Some "b") doug empty_params with_doug
    = (Err (not_found "b"), after with_doug [Fetch "b"] (store with_doug)).
Proof.
  split; [reflexivity |].
  apply (update_of_missing_record accept scan (people None) "b" doug empty_params
           with_doug eq_refl eq_refl).
  vm_compute; reflexivity.
Defined.

Lemma update_then_get_witness :
  identity_check "uuid" doug = false
  ∧ (_get accept scan (people None) "a" empty_params
       (_update accept scan (people None) (Some "a") doug empty_params with_doug).2).1
    = Err (not_found "a").
Proof.
  split; [vm_compute; reflexivity |].
  destruct (update_then_get accept scan (people None) "a" doug empty_params
              empty_params with_doug eq_refl eq_refl eq_refl)
    as [_ Hget]; [vm_compute; reflexivity |].
  rewrite Hget. vm_compute; reflexivity.
Defined.

Lemma remove_returns_then_deletes_witness :
  faults with_doug = []
  ∧ (_remove accept scan (people None) (Some "a") empty_params with_doug).1
    = Ok (mkEntity "a" (<["uuid" := VStr "a"]> doug)).
Proof.
  split; [reflexivity |].
  destruct (remove_returns_then_deletes accept scan (people None) "a" empty_params
              empty_params with_doug (<["uuid" := VStr "a"]> doug)
              eq_refl eq_refl eq_refl)
    as [Hrun _]; [vm_compute; reflexivity | done | vm_compute; reflexivity |].
  by rewrite Hrun.
Defined.

Lemma patch_stores_what_it_returns_witness :
  faults with_doug = []
  ∧ (_patch accept scan (people None) (Some "a") {[ "age" := VNum 33 ]}
       empty_params with_doug).1
    = Ok (mkEntity "a" ({[ "age" := VNum 33 ]} ∪ <["uuid" := VStr "a"]> doug)).
Proof.
  split; [reflexivity |].
  rewrite (patch_stores_what_it_returns accept scan (people None) "a"
             {[ "age" := VNum 33 ]} empty_params with_doug
             (<["uuid" := VStr "a"]> doug) eq_refl eq_refl);
    [done | vm_compute; reflexivity | vm_compute; reflexivity].
Defined.

Lemma patch_remove_of_missing_record_witness :
  faults with_doug = []
  ∧ _remove accept scan (people None) (Some "b") empty_params with_doug
    = (Err (not_found "b"), after with_doug [Fetch "b"] (store with_doug)).
Proof.
  split; [reflexivity |].
  apply (patch_remove_of_missing_record accept scan (people None) "b" doug
           empty_params with_doug eq_refl eq_refl).
  vm_compute; reflexivity.
Defined.

Lemma find_without_query_witness :
  p_query empty_params = None
  ∧ _find accept scan (people None) empty_params three_people
    = (Err (OtherError "TypeError" "Cannot read properties of undefined"), three_people).
Proof.
  split; [reflexivity |].
  apply (find_without_query accept scan (people None) empty_params three_people eq_refl).
Defined.

Lemma find_without_pagination_witness :
  faults three_people = []
  ∧ ∃ results w',
      _find accept scan (people None)
        (mkParams (Some (mkQuery None None (Some 1) (Some 1) [])) PaginateUndefined false)
        three_people = (Ok (Items results), w')
      ∧ store w' = store three_people.
Proof.
  split; [reflexivity |].
  destruct (find_without_pagination accept scan (people None)
              (mkParams (Some (mkQuery None None (Some 1) (Some 1) []))
                 PaginateUndefined false) [] three_people
              eq_refl eq_refl eq_refl)
    as (w' & Hrun & Hstore); [simpl; lia | right; exists 1; by split |].
  eauto.
Defined.

Lemma find_with_pagination_witness :
  faults three_people = []
  ∧ paginationDisabled paged_people (limited 2 None PaginateUndefined) = false
  ∧ ∃ data w',
      _find accept scan paged_people (limited 2 None PaginateUndefined) three_people
      = (Ok (Paginated 3 (Lim 2) 0 data), w')
      ∧ length data = 2%nat.
Proof.
  split; [reflexivity |]. split; [reflexivity |].
  destruct (find_with_pagination accept scan paged_people
              (limited 2 None PaginateUndefined) [] three_people
              eq_refl eq_refl eq_refl) as [Hrun _].
  eexists _, _. split; [exact Hrun |]. vm_compute; reflexivity.
Defined.

(** A payload that names its identity; a payload whose identity is a
    number. *)
Lemma single_create_expiration_witness :
  faults fresh = []
  ∧ (∃ entity w',
       _create numbered (people (Some 60)) (One (<["uuid" := VStr "mine"]> doug))
         empty_params fresh = (Ok (One entity), w')
       ∧ log w' = [Save "uuid-0" (fields entity); Expire "mine" 60])
  ∧ (∃ w',
       _create numbered (people (Some 60)) (One (<["uuid" := VNum 5]> doug))
         empty_params fresh
       = (Err (OtherError "TypeError" "ids.map is not a function"), w')
       ∧ log w' = [Save "uuid-0" (<["uuid" := VNum 5]> doug)]).
Proof.
  split; [reflexivity |]. split.
  - destruct (proj1 (single_create_expiration numbered (people (Some 60))
                       (<["uuid" := VStr "mine"]> doug) empty_params fresh eq_refl))
      as (w' & Hrun & _ & Hlog & _ & Hown); [intros _; vm_compute; exact I |].
    eexists _, w'. split; [exact Hrun |].
    rewrite Hlog, (Hown "mine") by (vm_compute; reflexivity). reflexivity.
  - destruct (proj2 (single_create_expiration numbered (people (Some 60))
                       (<["uuid" := VNum 5]> doug) empty_params fresh eq_refl)
                (VNum 5))
      as (w' & Hrun & _ & Hlog); [reflexivity | vm_compute; reflexivity | exact I |].
    exists w'. split; [exact Hrun |]. rewrite Hlog. vm_compute; reflexivity.
Defined.

Lemma failed_expiration_leaves_the_record_witness :
  faults (failing_second timeout) = [None; Some timeout]
  ∧ configured (people (Some 60)) = true
  ∧ keyed "uuid" doug
  ∧ ∃ w',
      _create numbered (people (Some 60)) (One doug) empty_params
        (failing_second timeout) = (Err timeout, w')
      ∧ is_Some (store w' !! "uuid-0").
Proof.
  split; [reflexivity |]. split; [reflexivity |].
  assert (keyed "uuid" doug) as Hkeyed by (vm_compute; exact I).
  split; [exact Hkeyed |].
  destruct (failed_expiration_leaves_the_record numbered (people (Some 60)) doug
              empty_params (failing_second timeout) timeout eq_refl eq_refl Hkeyed)
    as (w' & Hrun & Hstored & _).
  exists w'. split; [exact Hrun |]. by eexists.
Defined.

Lemma batch_create_has_no_rollback_witness :
  faults (failing_first timeout) = [Some timeout]
  ∧ ∃ w',
      _create numbered batch_people (Many [doug; doug; doug]) empty_params
        (failing_first timeout) = (Err timeout, w')
      ∧ length (log w') = 3%nat.
Proof.
  split; [reflexivity |].
  destruct (batch_create_has_no_rollback numbered batch_people doug [doug; doug]
              empty_params (failing_first timeout) timeout eq_refl)
    as (w' & Hrun & _ & Hlog & _).
  exists w'. split; [exact Hrun |]. rewrite Hlog. reflexivity.
Defined.

Lemma create_then_get_witness :
  faults fresh = [] ∧ doug !! "uuid" = None
  ∧ (_get accept scan (people None) "uuid-0" empty_params
       (_create numbered (people None) (One doug) empty_params fresh).2).1
    = Ok (mkEntity "uuid-0" (<["uuid" := VStr "uuid-0"]> doug)).
Proof.
  split; [reflexivity |]. split; [vm_compute; reflexivity |].
  apply (create_then_get accept scan numbered (people None) doug empty_params
           empty_params fresh eq_refl eq_refl); [vm_compute; reflexivity | done].
Defined.

Lemma rejected_query_ends_the_call_witness :
  reject_all (people None) empty_params = Err (BadRequest "Invalid query parameter")
  ∧ Service.get accept scan reject_all (people None) "a" empty_params with_doug
    = (Err (BadRequest "Invalid query parameter"), with_doug).
Proof.
  split; [reflexivity |].
  apply (rejected_query_ends_the_call accept scan reject_all (people None)
           (Some "a") "a" doug empty_params with_doug _ eq_refl).
Defined.

Lemma stripped_limit_changes_nothing_witness :
  let_through (people None) (limited 0 None PaginateUndefined)
  = Ok (mkQuery None None (Some 0) None [])
  ∧ Service.remove accept scan let_through (people None) (Some "a")
      (limited 0 None PaginateUndefined) with_doug
    = _remove accept scan (people None) (Some "a")
        (Service.with_query (limited 0 None PaginateUndefined)
           (mkQuery None None (Some 0) None [])) with_doug.
Proof.
  split; [reflexivity |].
  apply (stripped_limit_changes_nothing accept scan let_through (people None)
           (Some "a") doug (limited 0 None PaginateUndefined)
           (mkQuery None None (Some 0) None []) with_doug eq_refl).
Defined.

(** ** Expire, and the lookup with a filter *)

Section ExpireAndFilter.
Variable raises : call → option error.
Variable matching : list call → gmap string (gmap string value) → list Entity.

(** X24. [expire] on a key, or on a record whose identity is a string,
    sends the store one [Expire] for it and touches no record. It has no
    handler of its own: an error of the store leaves it as it came, an
    error of redis-om included. On a record whose identity is absent, or
    no string and no list, it throws a [TypeError] and sends nothing. *)
Theorem expire_sends_one_command (self : Adapter) (key : string + Entity)
    (seconds : Z) (w : World) :
  (∀ id,
     key = inl id
     ∨ (∃ entity, key = inr entity
                  ∧ fields entity !! opt_id (options self) = Some (VStr id)) →
     log (expire self key seconds w).2 = log w ++ [Expire id seconds]
     ∧ store (expire self key seconds w).2 = store w
     ∧ (faults w = [] → (expire self key seconds w).1 = Ok ())
     ∧ (∀ e rest, faults w = Some e :: rest → (expire self key seconds w).1 = Err e))
  ∧ (∀ entity, key = inr entity →
       from_option no_ids True (fields entity !! opt_id (options self)) →
       expire self key seconds w
       = (Err (OtherError "TypeError" "ids.map is not a function"), w)).
Proof.
  split.
  - intros id Hkey.
    assert (expire self key seconds = roundtrip (Expire id seconds)) as ->.
    { destruct Hkey as [-> | (entity & -> & Hid)];
        [apply expire_key | by apply expire_record]. }
    split; [| split; [| split]].
    + unfold roundtrip. by destruct (faults w) as [| [e |] rest].
    + apply keeps_roundtrip.
    + intros Hcalm. by rewrite roundtrip_calm.
    + intros e rest Hfaults. by rewrite (roundtrip_next _ _ (Some e) rest).
  - intros entity -> Hid. by apply expire_record_throws.
Qed.

(** X25. A lookup with a filter. The search is the translation of the
    filter followed by the condition that the identity field equals the
    id; on a store that answers, the lookup returns the first match,
    selected, when its identity field is truthy, and fails with
    [NotFound] when there is no match or the first match has none. *)
Theorem get_with_filter (self : Adapter) (id : string) (params : Params)
    (clauses : list call) (w : World) :
  faults w = [] →
  filter_of self params ≠ [] →
  redisQuery raises [] (filter_of self params) None = Ok clauses →
  raises (AndEq (opt_id (options self)) (VStr id)) = None →
  let search := clauses ++ [AndEq (opt_id (options self)) (VStr id)] in
  _get raises matching self id params w
  = (match matching search (store w) with
     | [] => Err (not_found id)
     | first :: _ =>
         if identity_check (opt_id (options self)) (fields first)
         then Ok (select_fields (selection self params) (opt_id (options self)) first)
         else Err (not_found id)
     end,
     after w [ReturnAll search] (store w)).
Proof.
  intros Hcalm Hfilter Hclauses Haccepted search. subst search.
  unfold filter_of, selection in *. unfold _get, try_catch.
  destruct (filterQuery self params) as [[pg filters] query]. simpl in *.
  destruct query as [| entry rest]; [done |]. cbn -[redisQuery].
  rewrite !bind_run. unfold lift. rewrite Hclauses.
  rewrite !bind_run. unfold invoke. rewrite Haccepted.
  unfold search_return_all. rewrite !bind_run, roundtrip_calm by done.
  simpl.
  destruct (matching _ (store w)) as [| first others]; [done |].
  simpl. unfold identity_check.
  destruct (String.eqb (opt_id (options self)) ""); simpl; [done |].
  by destruct (truthy_opt _).
Qed.
End ExpireAndFilter.

(** A record identified by [a]; a record whose identity is a number. *)
Lemma expire_sends_one_command_witness :
  log (expire (people None) (inr (mkEntity "a" (<["uuid" := VStr "a"]> doug))) 60
         with_doug).2 = [Expire "a" 60]
  ∧ expire (people None) (inr (mkEntity "a" (<["uuid" := VNum 5]> doug))) 60 with_doug
    = (Err (OtherError "TypeError" "ids.map is not a function"), with_doug).
Proof.
  split.
  - apply (proj1 (expire_sends_one_command (people None)
                    (inr (mkEntity "a" (<["uuid" := VStr "a"]> doug))) 60 with_doug) "a").
    right. by eexists.
  - by apply (proj2 (expire_sends_one_command (people None)
                       (inr (mkEntity "a" (<["uuid" := VNum 5]> doug))) 60 with_doug)
                (mkEntity "a" (<["uuid" := VNum 5]> doug))).
Defined.

Lemma get_with_filter_witness :
  faults three_people = []
  ∧ (_get accept scan (people None) "b"
       (mkParams (Some (mkQuery None None None None [("name", VStr "Bob")]))
          PaginateUndefined false) three_people).1
    = Ok (mkEntity "b" {[ "uuid" := VStr "b"; "name" := VStr "Bob" ]}).
Proof.
  split; [reflexivity |].
  rewrite (get_with_filter accept scan (people None) "b"
             (mkParams (Some (mkQuery None None None None [("name", VStr "Bob")]))
                PaginateUndefined false)
             [WhereEquals "name" (VStr "Bob")] three_people eq_refl);
    [vm_compute; reflexivity | done | reflexivity | reflexivity].
Defined.
